(** * vtkplotter.utils.buildPolyData: a shallow embedding

    The function under study builds a [vtkPolyData] from a list of vertices,
    an optional face table and an optional polyline
    (src/vtkplotter/utils.py, lines 203-331).

    What is modelled, and how:
    - coordinates are values of an uninterpreted type [coord] with a
      distinguished [czero] (the [0.0] that [np.zeros] supplies); the builder
      never computes with coordinates, it only pads with zeros;
    - point ids and face indices are mathematical integers [Z]; a table of
      equal-length rows becomes a typed numpy array, whose element type
      (int64, uint64, float64 or object) numpy finds from the values, and
      whose arithmetic is that of the type: wrap-around for integers,
      rounding for float64, a [TypeError] of [SetId] for a float64. The
      float64 [hstack] followed by [.astype(ast)] on the fast path is
      modelled with its rounding and, outside the range of [ast], with what
      x86-64 stores;
    - Python list objects holding face rows live in a store
      [gmap nat (list Z)], and a face table is a list of references into it,
      so that two entries of a table may be the same object and an in-place
      update is seen through every reference;
    - [np.array(faces)] either copies (equal row lengths: a fresh 2-D array,
      whose rows are allocated at fresh locations) or keeps the caller's row
      objects (ragged table: a 1-D array of objects, as numpy made it when
      the function was written, and as its docstring expects of "faces of
      different number of vertices"); rows are Python lists;
    - a [vtkCellArray] is its legacy buffer [n, id_1, .., id_n, n, ..] with
      the number of cells; [cells] reads it back cell by cell;
    - exceptions are values of [exn]; the builder returns a result together
      with the store it leaves behind.

    The progress bar of the slow path only prints; it is not part of the
    returned value and is left out. *)

From stdpp Require Import gmap list.

(** ** Python and numpy preliminaries *)

Inductive exn : Set :=
  | IndexError   (* subscript of an empty sequence *)
  | TypeError    (* numpy_to_vtk on an array that is not numeric; SetId on
                    a float *)
  | OverflowError. (* a Python int outside the C type it is converted to *)

Definition result (A : Type) : Type := exn + A.

(** [range(a, b)] *)
Definition range (a b : nat) : list nat := seq a (b - a).

(** [len(a[0])] of a non-empty sequence of rows. *)
Definition len0 {A} (a : list (list A)) : nat := length (hd [] a).

(** A list of rows converts to a numeric 2-D array when all rows have the
    length of the first one. *)
Definition rectangular {A} (a : list (list A)) : bool :=
  forallb (λ r, length r =? len0 a) a.

(** ** vtkCellArray *)

Record CellArray : Set := { ncells : nat; conn : list Z }.

Definition empty_cells : CellArray := {| ncells := 0; conn := [] |}.

(** [InsertNextCell(npts)]: open a cell of [npts] points. *)
Definition InsertNextCellN (ca : CellArray) (npts : Z) : CellArray :=
  {| ncells := S (ncells ca); conn := conn ca ++ [npts] |}.

(** [InsertCellPoint(id)] *)
Definition InsertCellPoint (ca : CellArray) (id : Z) : CellArray :=
  {| ncells := ncells ca; conn := conn ca ++ [id] |}.

(** [InsertNextCell(cell)] for a [vtkCell] whose point ids are [ids]. *)
Definition InsertNextCell (ca : CellArray) (ids : list Z) : CellArray :=
  {| ncells := S (ncells ca); conn := conn ca ++ Z.of_nat (length ids) :: ids |}.

(** [SetCells(ncells, buffer)] *)
Definition SetCells (n : nat) (buf : list Z) : CellArray :=
  {| ncells := n; conn := buf |}.

(** Traversal of the buffer, as [GetNextCell] does it. *)
Fixpoint read_cells (n : nat) (buf : list Z) : list (list Z) :=
  match n, buf with
  | S n', c :: rest =>
      take (Z.to_nat c) rest :: read_cells n' (drop (Z.to_nat c) rest)
  | _, _ => []
  end.

Definition cells (ca : CellArray) : list (list Z) :=
  read_cells (ncells ca) (conn ca).

(** ** The store of Python row objects *)

Abbreviation loc := nat.
Abbreviation heap := (gmap nat (list Z)).

(** The row a reference denotes. Python has no dangling reference; outside
    the store a reference reads as the empty row. *)
Definition row (h : heap) (l : loc) : list Z := h !!! l.

(** [f[i] -= off] on the row object at [l]. *)
Definition isub (off : Z) (l : loc) (h : heap) (i : nat) : heap :=
  alter (λ f, <[i := (f !!! i - off)%Z]> f) l h.

Definition alloc (h : heap) (r : list Z) : loc * heap :=
  let l := fresh (dom h) in (l, <[l := r]> h).

Fixpoint alloc_rows (h : heap) (rows : list (list Z)) : list loc * heap :=
  match rows with
  | [] => ([], h)
  | r :: rs =>
      let '(l, h1) := alloc h r in
      let '(ls, h2) := alloc_rows h1 rs in
      (l :: ls, h2)
  end.

(** The element type numpy gives an array of Python ints (64-bit Linux,
    numpy 1.x): every int is an int64 if it fits, else a uint64 if it fits,
    else an object, and the types of the elements are promoted to one. An
    int64 and a uint64 have float64 as their common type; an array without
    elements is a float64 array. *)
Inductive dtype : Set := Int64 | UInt64 | Float64 | PyObject.

Definition in_int64 (v : Z) : bool := (- 2 ^ 63 <=? v)%Z && (v <? 2 ^ 63)%Z.
Definition in_uint64 (v : Z) : bool := (0 <=? v)%Z && (v <? 2 ^ 64)%Z.

Definition discover (v : Z) : dtype :=
  if in_int64 v then Int64 else if in_uint64 v then UInt64 else PyObject.

Definition promote (a b : dtype) : dtype :=
  match a, b with
  | PyObject, _ | _, PyObject => PyObject
  | Float64, _ | _, Float64 => Float64
  | Int64, Int64 => Int64
  | UInt64, UInt64 => UInt64
  | Int64, UInt64 | UInt64, Int64 => Float64
  end.

Definition dtype_of (rows : list (list Z)) : dtype :=
  match concat rows with
  | [] => Float64
  | v :: vs => foldl (λ d x, promote d (discover x)) (discover v) vs
  end.

(** The value of [np.array(faces)]: its shape has two entries for a
    table of equal-length rows and one otherwise. The rows of a typed array
    are kept as the integers they were made from; [elem] below reads them
    in the array's type. *)
Inductive ndarray : Set :=
  | Array2 (dt : dtype) (nf nc : nat) (rows : list loc)
  | Array1 (items : list loc).

Definition shape_len (a : ndarray) : nat :=
  match a with Array2 _ _ _ _ => 2 | Array1 _ => 1 end.

Definition np_array (h : heap) (faces : list loc) : ndarray * heap :=
  match faces with
  | [] => (Array1 [], h)
  | _ :: _ =>
      let rows := row h <$> faces in
      if rectangular rows then
        let '(views, h') := alloc_rows h rows in
        (Array2 (dtype_of rows) (length rows) (len0 rows) views, h')
      else (Array1 faces, h)
  end.

(** ** float64 and the id type *)

(** The float64 nearest to an integer (ties to even), as an integer. *)
Definition f64 (v : Z) : Z :=
  let a := Z.abs v in
  if (a <=? 2 ^ 53)%Z then v
  else
    let e := (Z.log2 a - 52)%Z in
    let q := (a / 2 ^ e)%Z in
    let r := (a mod 2 ^ e)%Z in
    let half := (2 ^ (e - 1))%Z in
    let q' :=
      if (r <? half)%Z then q
      else if (half <? r)%Z then (q + 1)%Z
      else if Z.even q then q else (q + 1)%Z in
    (Z.sgn v * (q' * 2 ^ e))%Z.

(** A Python int as a float64; beyond the largest float64 the conversion
    raises. *)
Definition float_of_int (v : Z) : result Z :=
  if (Z.abs v <? 2 ^ 1024 - 2 ^ 970)%Z then inr (f64 v) else inl OverflowError.

(** Two's complement wrap-around of int64 and uint64 arithmetic. *)
Definition wrap_int64 (v : Z) : Z := ((v + 2 ^ 63) `mod` 2 ^ 64 - 2 ^ 63)%Z.
Definition wrap_uint64 (v : Z) : Z := (v `mod` 2 ^ 64)%Z.

(** A float64 (here always a whole number) converted to a signed integer
    type of the given width: the value inside the range of the type;
    outside, C leaves the result open and x86-64 gives the least value of
    the type. *)
Definition cast_signed (bits : Z) (y : Z) : Z :=
  if ((- 2 ^ (bits - 1) <=? y) && (y <? 2 ^ (bits - 1)))%Z then y
  else (- 2 ^ (bits - 1))%Z.

(** The same for uint64, as compilers for x86-64 make the conversion. *)
Definition cast_uint64 (y : Z) : Z :=
  if (y <? 2 ^ 63)%Z then
    if (- 2 ^ 63 <=? y)%Z then wrap_uint64 y else (2 ^ 63)%Z
  else if (y <? 2 ^ 64)%Z then y else 0%Z.

(** A scalar: an integer (a Python int, an int64 or a uint64) or a
    float64, which in this program is always a whole number. *)
Inductive scalar : Set :=
  | SInt (v : Z)
  | SFloat (v : Z).

(** The element of an array of type [dt] made from the Python int [v]. *)
Definition elem (dt : dtype) (v : Z) : scalar :=
  match dt with
  | Float64 => SFloat (f64 v)
  | Int64 | UInt64 | PyObject => SInt v
  end.

(** [x - indexOffset] for an element [x]: the Python int [indexOffset] is
    typed as an array element would be, and the difference is taken in the
    common type of the two. *)
Definition elem_sub (dt : dtype) (v off : Z) : result scalar :=
  match promote dt (discover off) with
  | Int64 => inr (SInt (wrap_int64 (v - off)))
  | UInt64 => inr (SInt (wrap_uint64 (v - off)))
  | Float64 =>
      match float_of_int off with
      | inl e => inl e
      | inr o => inr (SFloat (f64 (f64 v - o)))
      end
  | PyObject =>
      match dt with
      | Float64 =>
          match float_of_int off with
          | inl e => inl e
          | inr o => inr (SFloat (f64 (f64 v - o)))
          end
      | _ => inr (SInt (v - off))
      end
  end.

(** [f[i] = x] for an array of type [dt]: the integer kept for the element,
    after the conversion of [x] to the type. *)
Definition store_elem (dt : dtype) (x : scalar) : result Z :=
  match dt, x with
  | Int64, SInt n => if in_int64 n then inr n else inl OverflowError
  | Int64, SFloat y => inr (cast_signed 64 y)
  | UInt64, SInt n =>
      if in_uint64 n || in_int64 n then inr (wrap_uint64 n)
      else inl OverflowError
  | UInt64, SFloat y => inr (cast_uint64 y)
  | Float64, SInt n => float_of_int n
  | Float64, SFloat y => inr y
  | PyObject, SInt n => inr n
  | PyObject, SFloat y => inr y   (* not reached: see [elem_sub] *)
  end.

(** [SetId(i, x)] of a [vtkIdList]: a float is refused. *)
Definition SetId (x : scalar) : result Z :=
  match x with
  | SInt v => inr v
  | SFloat _ => inl TypeError
  end.

(** ** The mesh *)

Section Builder.

Context {coord : Type}.
Variable czero : coord.
(** [vtk.vtkIdTypeArray().GetDataTypeSize()] *)
Variable id_size : Z.

Record PolyData : Type := {
  Points : list (list coord);
  Verts : CellArray;
  Lines : CellArray;
  Polys : CellArray
}.

Definition new_PolyData : PolyData :=
  {| Points := []; Verts := empty_cells; Lines := empty_cells;
     Polys := empty_cells |}.

(** [vtkPoints.SetData] followed by [poly.SetPoints]: vtkPoints keeps its
    own (empty, 3-component) array when the number of components differs. *)
Definition SetPoints (p : PolyData) (data : list (list coord)) : PolyData :=
  {| Points := if len0 data =? 3 then data else [];
     Verts := Verts p; Lines := Lines p; Polys := Polys p |}.

Definition SetVerts (p : PolyData) (ca : CellArray) : PolyData :=
  {| Points := Points p; Verts := ca; Lines := Lines p; Polys := Polys p |}.

Definition SetLines (p : PolyData) (ca : CellArray) : PolyData :=
  {| Points := Points p; Verts := Verts p; Lines := ca; Polys := Polys p |}.

Definition SetPolys (p : PolyData) (ca : CellArray) : PolyData :=
  {| Points := Points p; Verts := Verts p; Lines := Lines p; Polys := ca |}.

(** [np.c_[np.array(a), np.zeros(len(a))]] *)
Definition c_zeros (a : list (list coord)) : list (list coord) :=
  (λ r, r ++ [czero]) <$> a.

(** Lines 219-222. *)
Definition make3d (vertices : list (list coord)) : list (list coord) :=
  if len0 vertices <? 3 then
    let vertices := c_zeros vertices in
    if len0 vertices =? 2 then c_zeros vertices else vertices
  else vertices.

(** [numpy_to_vtk(np.ascontiguousarray(vertices), deep=True)] *)
Definition numpy_to_vtk (a : list (list coord)) : option (list (list coord)) :=
  if rectangular a then Some a else None.

(** Lines 232-238. *)
Definition line_cells (lines : list Z) : CellArray :=
  foldl (λ linesarr i,
           InsertNextCell linesarr [lines !!! i; lines !!! (i + 1)])
        empty_cells (range 1 (length lines - 1)).

(** Lines 243-246. *)
Definition vert_cells (n : nat) : CellArray :=
  foldl (λ sourceVertices i,
           InsertCellPoint (InsertNextCellN sourceVertices 1) (Z.of_nat i))
        empty_cells (range 0 n).

(** Lines 257-259. *)
Definition ast_bits : Z := if (id_size =? 4)%Z then 32%Z else 64%Z.

(** float64 to [ast]. *)
Definition astype (x : Z) : Z := cast_signed ast_bits x.

(** [np.hstack((np.zeros(nf)[:,None] + nc, faces))]: a float64 array. *)
Definition hstack_counts (nc : nat) (faces : list (list Z)) : list (list Z) :=
  (λ r, f64 (Z.of_nat nc) :: (f64 <$> r)) <$> faces.

(** Lines 261-264. With an array of objects [hstack] gives an array of
    objects, whose conversion to [ast] raises at a Python int outside the
    C long; such an array has one. *)
Definition fast_cells (dt : dtype) (nf nc : nat) (faces : list (list Z))
  : result CellArray :=
  match dt with
  | PyObject => inl OverflowError
  | Int64 | UInt64 | Float64 =>
      inr (SetCells nf (concat ((λ r : list Z, astype <$> r) <$> hstack_counts nc faces)))
  end.

(** [SetId(i, f[i] - indexOffset)] for [i] in [range(n)], on a row [f] of a
    typed array; the first call that raises ends the loop. *)
Fixpoint set_ids (dt : dtype) (indexOffset : Z) (f : list Z)
  : result (list Z) :=
  match f with
  | [] => inr []
  | v :: f =>
      match elem_sub dt v indexOffset with
      | inl e => inl e
      | inr x =>
          match SetId x with
          | inl e => inl e
          | inr id =>
              match set_ids dt indexOffset f with
              | inl e => inl e
              | inr ids => inr (id :: ids)
              end
          end
      end
  end.

(** [f[i] -= indexOffset] for [i] in [[0,1,2,3]], on a row of a typed
    array. *)
Fixpoint isub_typed (dt : dtype) (indexOffset : Z) (f : list Z)
  : result (list Z) :=
  match f with
  | [] => inr []
  | v :: f =>
      match elem_sub dt v indexOffset with
      | inl e => inl e
      | inr x =>
          match store_elem dt x with
          | inl e => inl e
          | inr v' =>
              match isub_typed dt indexOffset f with
              | inl e => inl e
              | inr f' => inr (v' :: f')
              end
          end
      end
  end.

(** The calls of [SetId] of lines 297-311, in their order, for the four
    elements of a row. *)
Definition quad_ids (a b c d : scalar) : result (list (list Z)) :=
  match SetId a, SetId b, SetId c, SetId d with
  | inr a, inr b, inr c, inr d =>
      inr [[a; b; c]; [a; b; d]; [b; c; d]; [c; d; a]]
  | inl e, _, _, _ => inl e
  | _, inl e, _, _ => inl e
  | _, _, inl e, _ => inl e
  | _, _, _, inl e => inl e
  end.

(** The body of the loop of lines 273-326 for a row [f] of a typed array.
    The row is a view of the array's own buffer, which nothing else refers
    to: what line 292 writes is read back by line 293 and by nothing
    else. *)
Definition slow_body_typed (dt : dtype) (indexOffset : Z)
    (sourcePolygons : CellArray) (f : list Z) : result CellArray :=
  let n := length f in
  if n =? 3 then
    match set_ids dt indexOffset f with
    | inl e => inl e
    | inr ids => inr (InsertNextCell sourcePolygons ids)
    end
  else if n =? 4 then
    match (if (indexOffset =? 0)%Z then inr f
           else isub_typed dt indexOffset f) with
    | inl e => inl e
    | inr f =>
        match quad_ids (elem dt (f !!! 0)) (elem dt (f !!! 1))
                (elem dt (f !!! 2)) (elem dt (f !!! 3)) with
        | inl e => inl e
        | inr cs => inr (foldl InsertNextCell sourcePolygons cs)
        end
    end
  else
    match set_ids dt indexOffset f with
    | inl e => inl e
    | inr ids => inr (InsertNextCell sourcePolygons ids)
    end.

Fixpoint slow_loop_typed (dt : dtype) (indexOffset : Z)
    (sourcePolygons : CellArray) (faces : list (list Z)) : result CellArray :=
  match faces with
  | [] => inr sourcePolygons
  | f :: faces =>
      match slow_body_typed dt indexOffset sourcePolygons f with
      | inl e => inl e
      | inr sourcePolygons =>
          slow_loop_typed dt indexOffset sourcePolygons faces
      end
  end.

Definition slow_cells_typed (dt : dtype) (indexOffset : Z)
    (faces : list (list Z)) : result CellArray :=
  slow_loop_typed dt indexOffset empty_cells faces.

(** The body of the loop of lines 273-326 for the face object at [f], a
    Python list of Python ints: the item of an array of objects. *)
Definition slow_body (indexOffset : Z) (st : heap * CellArray) (f : loc)
  : heap * CellArray :=
  let '(h, sourcePolygons) := st in
  let n := length (row h f) in
  if n =? 3 then
    (h, InsertNextCell sourcePolygons
          ((λ i, (row h f !!! i - indexOffset)%Z) <$> range 0 3))
  else if n =? 4 then
    let h :=
      if (indexOffset =? 0)%Z then h
      else foldl (isub indexOffset f) h [0; 1; 2; 3] in
    let f0 := row h f !!! 0 in
    let f1 := row h f !!! 1 in
    let f2 := row h f !!! 2 in
    let f3 := row h f !!! 3 in
    let sourcePolygons := InsertNextCell sourcePolygons [f0; f1; f2] in
    let sourcePolygons := InsertNextCell sourcePolygons [f0; f1; f3] in
    let sourcePolygons := InsertNextCell sourcePolygons [f1; f2; f3] in
    let sourcePolygons := InsertNextCell sourcePolygons [f2; f3; f0] in
    (h, sourcePolygons)
  else
    (h, InsertNextCell sourcePolygons
          ((λ i, (row h f !!! i - indexOffset)%Z) <$> range 0 n)).

Definition slow_cells (indexOffset : Z) (h : heap) (faces : list loc)
  : heap * CellArray :=
  foldl (slow_body indexOffset) (h, empty_cells) faces.

(** The test of line 254. *)
Definition use_fast (faces : ndarray) (indexOffset : Z) (fast : bool) : bool :=
  (shape_len faces =? 2) && (indexOffset =? 0)%Z && fast.

Definition buildPolyData (h : heap) (vertices : list (list coord))
    (faces : option (list loc)) (lines : option (list Z))
    (indexOffset : Z) (fast : bool) : result PolyData * heap :=
  match vertices with
  | [] => (inl IndexError, h)
  | _ :: _ =>
    let vertices := make3d vertices in
    match numpy_to_vtk vertices with
    | None => (inl TypeError, h)
    | Some data =>
      let poly := SetPoints new_PolyData data in
      let poly :=
        match lines with
        | Some lines => SetLines poly (line_cells lines)
        | None => poly
        end in
      match faces with
      | None => (inr (SetVerts poly (vert_cells (length vertices))), h)
      | Some faces =>
        let '(faces, h) := np_array h faces in
        if use_fast faces indexOffset fast then
          match faces with
          | Array2 dt nf nc rows =>
            match fast_cells dt nf nc (row h <$> rows) with
            | inr sourcePolygons => (inr (SetPolys poly sourcePolygons), h)
            | inl e => (inl e, h)
            end
          | Array1 _ =>
            (* [nf, nc = faces.shape] of a 1-D array; not reached, the test
               above asks for two dimensions *)
            (inl TypeError, h)
          end
        else
          match faces with
          | Array2 dt _ _ rows =>
            match slow_cells_typed dt indexOffset (row h <$> rows) with
            | inr sourcePolygons => (inr (SetPolys poly sourcePolygons), h)
            | inl e => (inl e, h)
            end
          | Array1 items =>
            let '(h, sourcePolygons) := slow_cells indexOffset h items in
            (inr (SetPolys poly sourcePolygons), h)
          end
      end
    end
  end.

End Builder.

(** ** Views of the builder used in the statements *)

(** The buffer of a list of cells, and the cell array holding them. *)
Definition encode (cs : list (list Z)) : list Z :=
  concat ((λ c, Z.of_nat (length c) :: c) <$> cs).

Definition of_cells (cs : list (list Z)) : CellArray :=
  {| ncells := length cs; conn := encode cs |}.

(** Offset-adjusted indices of a row. *)
Definition adjust (off : Z) (f : list Z) : list Z := (λ v, (v - off)%Z) <$> f.

(** The cells that the loop body inserts for a row. *)
Definition face_cells (off : Z) (f : list Z) : list (list Z) :=
  match adjust off f with
  | [a; b; c; d] => [[a; b; c]; [a; b; d]; [b; c; d]; [c; d; a]]
  | g => [g]
  end.

(** The store after the loop body has run on the row object at [l]. *)
Definition touch (off : Z) (h : gmap nat (list Z)) (l : nat) : gmap nat (list Z) :=
  if (length (row h l) =? 4) && negb (off =? 0)%Z
  then <[l := adjust off (row h l)]> h else h.

(** The cells of a whole run, each row read in the store its predecessors
    left. *)
Fixpoint run_cells (off : Z) (h : gmap nat (list Z)) (faces : list nat)
  : list (list Z) :=
  match faces with
  | [] => []
  | l :: ls => face_cells off (row h l) ++ run_cells off (touch off h l) ls
  end.



(** A table that numpy holds as int64 and whose offset-adjusted indices
    are in the range of int64 too, for an offset in that range. *)
Definition int64_ok (off : Z) (rows : list (list Z)) : Prop :=
  in_int64 off = true
  ∧ Forall (Forall (λ v, in_int64 v = true ∧ in_int64 (v - off) = true)) rows.

(** An integer that survives the float64 detour and fits the id type. *)
Definition exact_id (id_size : Z) (v : Z) : Prop :=
  (Z.abs v ≤ 2 ^ 53 ∧ - 2 ^ (ast_bits id_size - 1) ≤ v < 2 ^ (ast_bits id_size - 1))%Z.

Section Views.

Context {coord : Type}.
Variable czero : coord.
Variable id_size : Z.

(** A point set the builder accepts: at least one point, and all points
    with the same number of components. *)
Definition good_vertices (vertices : list (list coord)) : Prop :=
  vertices ≠ [] ∧ rectangular vertices = true.

(** Lines 219-239: the mesh before any cell of a face is made. *)
Definition prelude (vertices : list (list coord)) (lines : option (list Z))
  : result (@PolyData coord) :=
  match vertices with
  | [] => inl IndexError
  | _ :: _ =>
    match numpy_to_vtk (make3d czero vertices) with
    | None => inl TypeError
    | Some data =>
      let poly := SetPoints new_PolyData data in
      inr (match lines with
           | Some lines => SetLines poly (line_cells lines)
           | None => poly
           end)
    end
  end.

(** Lines 252-328: the polygon cells and the store they leave. *)
Definition polygons (h : gmap nat (list Z)) (faces : list nat)
    (indexOffset : Z) (fast : bool) : result CellArray * gmap nat (list Z) :=
  let '(faces, h) := np_array h faces in
  if use_fast faces indexOffset fast then
    match faces with
    | Array2 dt nf nc rows =>
      match fast_cells id_size dt nf nc (row h <$> rows) with
      | inr sourcePolygons => (inr sourcePolygons, h)
      | inl e => (inl e, h)
      end
    | Array1 _ => (inl TypeError, h)   (* not reached: the test asks for 2-D *)
    end
  else
    match faces with
    | Array2 dt _ _ rows =>
      match slow_cells_typed dt indexOffset (row h <$> rows) with
      | inr sourcePolygons => (inr sourcePolygons, h)
      | inl e => (inl e, h)
      end
    | Array1 items =>
      let '(h, sourcePolygons) := slow_cells indexOffset h items in
      (inr sourcePolygons, h)
    end.

(** The mesh of a good point set before the faces are looked at. *)
Definition base_poly (vertices : list (list coord)) (lines : option (list Z))
  : @PolyData coord :=
  {| Points := if len0 (make3d czero vertices) =? 3
               then make3d czero vertices else [];
     Verts := empty_cells;
     Lines := match lines with
              | Some lines => line_cells lines
              | None => empty_cells
              end;
     Polys := empty_cells |}.

End Views.

(** ** Concrete inputs *)

(** The unit square, with integer coordinates standing for the floats. *)
Definition square : list (list Z) :=
  [[0; 0; 0]; [1; 0; 0]; [1; 1; 0]; [0; 1; 0]]%Z.

(** The store of a caller holding the single row [[0,1,2,3]]. *)
Definition quad_store : gmap nat (list Z) := {[ 0 := [0; 1; 2; 3]%Z ]}.


(** The same face numbered from 1. *)
Definition quad_store1 : gmap nat (list Z) := {[ 0 := [1; 2; 3; 4]%Z ]}.

(** Two triangles of the square. *)
Definition tri_store : gmap nat (list Z) :=
  {[ 0 := [0; 1; 2]%Z; 1 := [0; 2; 3]%Z ]}.

(** The two triangles numbered from 1. *)
Definition tri_store1 : gmap nat (list Z) :=
  {[ 0 := [1; 2; 3]%Z; 1 := [1; 3; 4]%Z ]}.

(** A ragged table numbered from 1: a triangle, a 4-vertex row, a pentagon. *)
Definition ragged_store1 : gmap nat (list Z) :=
  {[ 0 := [1; 2; 3]%Z; 1 := [1; 2; 3; 4]%Z; 2 := [1; 2; 3; 4; 1]%Z ]}.

(** Three points in the plane. *)
Definition flat_triangle : list (list Z) := [[0; 0]; [1; 0]; [1; 1]]%Z.

#[global] Instance int64_ok_dec off rows : Decision (int64_ok off rows).
Proof. unfold int64_ok. apply _. Defined.

#[global] Instance exact_id_dec id_size v : Decision (exact_id id_size v).
Proof. unfold exact_id. apply _. Defined.

(** Closed decidable facts are settled by evaluation. *)
Ltac by_eval :=
  match goal with
  | |- ?P => apply (bool_decide_eq_true_1 P); vm_compute; reflexivity
  end.

(** * Other functions of utils.py *)

(** ** flatten (lines 345-356) *)

(** A Python value as [flatten] sees it: a list, a tuple, or anything
    else. *)
#[warnings="-register-all"]
Inductive pyobj (A : Type) : Type :=
  | Atom (a : A)
  | PyList (items : list (pyobj A))
  | PyTuple (items : list (pyobj A)).

Arguments Atom {A} a.
Arguments PyList {A} items.
Arguments PyTuple {A} items.

(** What [genflatten] yields at one element of its loop: the elements of
    [flatten(elem)] for a list or a tuple, the element itself otherwise. *)
Fixpoint genflatten_elem {A} (elem : pyobj A) : list (pyobj A) :=
  match elem with
  | PyList items | PyTuple items => concat (map genflatten_elem items)
  | Atom _ => [elem]
  end.

(** [list(genflatten(list_to_flatten))] *)
Definition flatten {A} (list_to_flatten : list (pyobj A)) : list (pyobj A) :=
  concat (map genflatten_elem list_to_flatten).

(** [isinstance(elem, (list, tuple))] *)
Definition is_list_or_tuple {A} (elem : pyobj A) : bool :=
  match elem with Atom _ => false | _ => true end.

(** [x] is an element of [l] or of a list or tuple inside it, at any
    depth. *)
Inductive inside {A} (x : pyobj A) : list (pyobj A) → Prop :=
  | inside_here l : x ∈ l → inside x l
  | inside_list l items : PyList items ∈ l → inside x items → inside x l
  | inside_tuple l items : PyTuple items ∈ l → inside x items → inside x l.

(** ** ProgressBar (lines 47-177): the counter

    The fields [start], [stop], [step], [_counts] and [_len], for integer
    arguments. [percent] and [bar] are computed from [_counts] and are not
    read back by [_update] nor by the choice [print] makes; with the clock
    and the output they are left out. [print] sets the counter in its
    first statement and does not assign these fields after it; what follows
    (lines 96-141) writes the bar and, with [ETA] set, divides by the
    velocity [_counts / elapsed], which raises [ZeroDivisionError] at a
    counter of 0. [print] below is the state of the counter at the end of a
    call, however the call ends. *)

Module ProgressBar.

Record t : Set := {
  start : Z;
  stop : Z;
  step : Z;
  counts : Z;   (* _counts *)
  len : nat     (* _len *)
}.

Definition set_counts (pb : t) (c : Z) : t :=
  {| start := start pb; stop := stop pb; step := step pb;
     counts := c; len := len pb |}.

(** [_update(counts)], lines 152-156. *)
Definition update (pb : t) (c : Z) : t :=
  let c :=
    if (c <? start pb)%Z then start pb
    else if (stop pb <? c)%Z then stop pb
    else c in
  set_counts pb c.



(** [print(txt, counts)], lines 92-95; [if counts:] takes 0 for no
    argument. *)
Definition print (pb : t) (c : option Z) : t :=
  match c with
  | Some c => if (c =? 0)%Z then update pb (counts pb + step pb)%Z else update pb c
  | None => update pb (counts pb + step pb)%Z
  end.


End ProgressBar.

(** ** humansort (lines 359-379)

    For Python 3 and lists of strings whose characters have code points
    below 256 (the characters of [ascii], read as Latin-1); a string with a
    character beyond is outside the model. [l.sort(key=alphanum_key)]
    computes the key of every element first and then sorts stably by [<] on
    the keys; the model returns the new contents of the list [l], which is
    also what the function returns. [max_str_digits] is the interpreter's
    limit on the digits of a string that [int] converts
    ([sys.get_int_max_str_digits()]: 4300 unless changed, 0 or at least 640;
    0 for no limit, as in interpreters that have none). *)

From Stdlib Require Import Ascii.
From stdpp Require Import strings sorting.

Module Humansort.

Inductive error : Set :=
  | ValueError   (* int() of a string that is not a decimal number *)
  | TypeError.   (* [<] between a str and an int *)

(** The class [[0-9]] of the pattern. *)
Definition is_09 (c : ascii) : bool :=
  (48 <=? nat_of_ascii c) && (nat_of_ascii c <=? 57).

(** [c.isdigit()]: below 256 these are 0-9 and the superscripts 2, 3, 1. *)
Definition char_isdigit (c : ascii) : bool :=
  is_09 c || (nat_of_ascii c =? 178) || (nat_of_ascii c =? 179)
  || (nat_of_ascii c =? 185).

Fixpoint all_chars (p : ascii → bool) (s : string) : bool :=
  match s with
  | EmptyString => true
  | String c s => p c && all_chars p s
  end.

(** [s.isdigit()] *)
Definition isdigit (s : string) : bool :=
  match s with
  | EmptyString => false
  | _ => all_chars char_isdigit s
  end.

(** [int(s)] for a string of decimal digits, from the left. *)
Fixpoint int_from (acc : N) (s : string) : option N :=
  match s with
  | EmptyString => Some acc
  | String c s =>
      if is_09 c then int_from (acc * 10 + (N_of_ascii c - 48))%N s
      else None
  end.

(** [re.split("([0-9]+)", s)], read from the left: [cur] is the piece being
    read, inside a match of the pattern when [in_match] is set. *)
Fixpoint re_split_from (in_match : bool) (cur s : string) : list string :=
  match s with
  | EmptyString => if in_match then [cur; EmptyString] else [cur]
  | String c s =>
      if is_09 c then
        if in_match then re_split_from true (cur +:+ String c EmptyString) s
        else cur :: re_split_from true (String c EmptyString) s
      else
        if in_match then cur :: re_split_from false (String c EmptyString) s
        else re_split_from false (cur +:+ String c EmptyString) s
  end.

Definition re_split (s : string) : list string :=
  re_split_from false EmptyString s.

(** An element of a key. *)
Inductive chunk : Set :=
  | CStr (s : string)
  | CInt (n : N).

#[global] Instance error_eq_dec : EqDecision error.
Proof. solve_decision. Defined.

#[global] Instance chunk_eq_dec : EqDecision chunk.
Proof. solve_decision. Defined.

Section WithLimit.

Variable max_str_digits : nat.

(** [int(s)]: a string of more than 640 characters is refused when it is
    longer than the limit; a string with a character that is not a decimal
    digit is refused. *)
Definition int (s : string) : error + N :=
  if (640 <? String.length s) && (0 <? max_str_digits)
     && (max_str_digits <? String.length s)
  then inl ValueError
  else
    match int_from 0 s with
    | Some n => inr n
    | None => inl ValueError
    end.

Definition tryint (s : string) : error + chunk :=
  if isdigit s then
    match int s with
    | inr n => inr (CInt n)
    | inl e => inl e
    end
  else inr (CStr s).

(** [[tryint(c) for c in ...]] *)
Fixpoint tryint_all (cs : list string) : error + list chunk :=
  match cs with
  | [] => inr []
  | c :: cs =>
      match tryint c with
      | inl e => inl e
      | inr x =>
          match tryint_all cs with
          | inl e => inl e
          | inr xs => inr (x :: xs)
          end
      end
  end.

Definition alphanum_key (s : string) : error + list chunk :=
  tryint_all (re_split s).

(** [a == b] *)
Definition chunk_eq (a b : chunk) : bool :=
  match a, b with
  | CStr s, CStr t => String.eqb s t
  | CInt n, CInt m => N.eqb n m
  | _, _ => false
  end.

(** [a < b] *)
Definition chunk_lt (a b : chunk) : error + bool :=
  match a, b with
  | CStr s, CStr t => inr (String.ltb s t)
  | CInt n, CInt m => inr (N.ltb n m)
  | _, _ => inl TypeError
  end.

(** [k1 < k2] for lists: the first pair of unequal elements decides, and a
    proper prefix is smaller. *)
Fixpoint key_lt (k1 k2 : list chunk) : error + bool :=
  match k1, k2 with
  | a :: k1, b :: k2 => if chunk_eq a b then key_lt k1 k2 else chunk_lt a b
  | [], _ :: _ => inr true
  | _, [] => inr false
  end.

(** The keys of all elements, in order. *)
Fixpoint keyed (l : list string) : error + list (list chunk * string) :=
  match l with
  | [] => inr []
  | s :: l =>
      match alphanum_key s with
      | inl e => inl e
      | inr k =>
          match keyed l with
          | inl e => inl e
          | inr kl => inr ((k, s) :: kl)
          end
      end
  end.

(** One element put in its place in a sorted list: behind every element
    that is not greater. *)
Fixpoint insort (x : list chunk * string) (l : list (list chunk * string))
  : error + list (list chunk * string) :=
  match l with
  | [] => inr [x]
  | y :: l' =>
      match key_lt x.1 y.1 with
      | inl e => inl e
      | inr true => inr (x :: l)
      | inr false =>
          match insort x l' with
          | inl e => inl e
          | inr r => inr (y :: r)
          end
      end
  end.

(** The stable sort of [list.sort]. *)
Fixpoint sort_from (acc l : list (list chunk * string))
  : error + list (list chunk * string) :=
  match l with
  | [] => inr acc
  | x :: l =>
      match insort x acc with
      | inl e => inl e
      | inr acc => sort_from acc l
      end
  end.

Definition humansort (l : list string) : error + list string :=
  match keyed l with
  | inl e => inl e
  | inr kl =>
      match sort_from [] kl with
      | inl e => inl e
      | inr sorted => inr (snd <$> sorted)
      end
  end.

End WithLimit.

End Humansort.

(** Views of the keys used in the statements about [humansort]. *)

Module HumansortViews.
Import Humansort.

(** A key as [alphanum_key] makes it: strings and numbers in turn. *)
Fixpoint alternates (str_turn : bool) (k : list chunk) : Prop :=
  match k with
  | [] => True
  | CStr _ :: k => str_turn = true ∧ alternates false k
  | CInt _ :: k => str_turn = false ∧ alternates true k
  end.

(** The pieces [re.split] cuts: stretches without 0-9 and non-empty runs of
    0-9 in turn, ending with a stretch without 0-9. *)
Fixpoint pieces (in_match : bool) (l : list string) : Prop :=
  match l with
  | [] => False
  | x :: l =>
      if in_match then
        (x ≠ EmptyString ∧ all_chars is_09 x = true) ∧ pieces false l
      else
        all_chars (λ c, negb (is_09 c)) x = true ∧ (l = [] ∨ pieces true l)
  end.

(** The order of the elements of keys, and of keys, as three-way
    comparisons. *)
Definition cmp_chunk (a b : chunk) : comparison :=
  match a, b with
  | CStr s, CStr t => String.compare s t
  | CInt n, CInt m => N.compare n m
  | CStr _, CInt _ => Lt
  | CInt _, CStr _ => Gt
  end.

Fixpoint cmp_key (k1 k2 : list chunk) : comparison :=
  match k1, k2 with
  | [], [] => Eq
  | [], _ :: _ => Lt
  | _ :: _, [] => Gt
  | a :: k1, b :: k2 =>
      match cmp_chunk a b with
      | Eq => cmp_key k1 k2
      | c => c
      end
  end.

Definition key_ltb (k1 k2 : list chunk) : bool :=
  match cmp_key k1 k2 with Lt => true | _ => false end.

(** No greater key. *)
Definition key_le (x y : list chunk * string) : Prop := cmp_key x.1 y.1 ≠ Gt.

(** [insort] and [sort_from] when no comparison fails. *)
Fixpoint insort_pure (x : list chunk * string) (l : list (list chunk * string))
  : list (list chunk * string) :=
  match l with
  | [] => [x]
  | y :: l' => if key_ltb x.1 y.1 then x :: l else y :: insort_pure x l'
  end.

Definition sort_pure (acc l : list (list chunk * string))
  : list (list chunk * string) :=
  foldl (λ acc x, insort_pure x acc) acc l.

(** Code points below 128. *)
Definition is_ascii7 (s : string) : bool :=
  all_chars (λ c, nat_of_ascii c <? 128) s.

(** A string that [int] does not refuse for its length, whatever it is cut
    into. *)
Definition within_limit (max_str_digits : nat) (s : string) : bool :=
  (String.length s <=? 640) || (max_str_digits =? 0)
  || (String.length s <=? max_str_digits).

(** Inputs of the examples. *)
Definition names : list string :=
  ["file11"; "file1"; "file2"; "file10"; "a"; "file01"; "file"]%string.

Definition names_sorted : list string :=
  ["a"; "file"; "file1"; "file01"; "file2"; "file10"; "file11"]%string.

(** The one-character string of code point 178, a superscript two. *)
Definition superscript_two : string := String (ascii_of_nat 178) EmptyString.

End HumansortViews.


(** The float64 detour of the fast path is the identity up to 2^53 and
    rounds beyond it; a value that the target type cannot hold becomes the
    least value of the type. *)
Example f64_small : f64 (2 ^ 53)%Z = (2 ^ 53)%Z.
Proof. reflexivity. Qed.

Example f64_rounds :
  f64 (2 ^ 53 + 1)%Z = (2 ^ 53)%Z ∧ f64 (2 ^ 53 + 3)%Z = (2 ^ 53 + 4)%Z.
Proof. split; reflexivity. Qed.

Example astype_int32_range :
  astype 4 (2 ^ 31 - 1)%Z = (2 ^ 31 - 1)%Z
  ∧ astype 4 (2 ^ 31)%Z = (- 2 ^ 31)%Z
  ∧ astype 8 (2 ^ 31)%Z = (2 ^ 31)%Z
  ∧ astype 8 (f64 (2 ^ 63))%Z = (- 2 ^ 63)%Z.
Proof. by split_and!. Qed.

(** * Proofs *)

(** ** Cell arrays hold the cells that were inserted *)

Lemma encode_app cs1 cs2 : encode (cs1 ++ cs2) = encode cs1 ++ encode cs2.
Proof. unfold encode. by rewrite fmap_app, concat_app. Qed.

Lemma read_cells_encode cs : read_cells (length cs) (encode cs) = cs.
Proof.
  induction cs as [|c cs IH]; [done|].
  cbn [length encode fmap list_fmap concat app read_cells].
  rewrite Nat2Z.id, take_app_length, drop_app_length.
  f_equal. exact IH.
Qed.

Lemma cells_of_cells cs : cells (of_cells cs) = cs.
Proof. apply read_cells_encode. Qed.

Lemma ncells_of_cells cs : ncells (of_cells cs) = length cs.
Proof. done. Qed.

Lemma of_cells_nil : empty_cells = of_cells [].
Proof. done. Qed.

Lemma InsertNextCell_of_cells cs ids :
  InsertNextCell (of_cells cs) ids = of_cells (cs ++ [ids]).
Proof.
  unfold InsertNextCell, of_cells. cbn [ncells conn].
  rewrite encode_app, length_app. cbn [length].
  f_equal; [lia|]. unfold encode at 2. cbn. by rewrite app_nil_r.
Qed.

Lemma InsertCellPoint_of_cells cs id :
  InsertCellPoint (InsertNextCellN (of_cells cs) 1) id = of_cells (cs ++ [[id]]).
Proof.
  unfold InsertCellPoint, InsertNextCellN, of_cells. cbn [ncells conn].
  rewrite encode_app, length_app, <- app_assoc. cbn [length].
  f_equal; lia.
Qed.

Lemma foldl_InsertNextCell {A} (g : A → list Z) xs cs :
  foldl (λ ca x, InsertNextCell ca (g x)) (of_cells cs) xs
  = of_cells (cs ++ (g <$> xs)).
Proof.
  revert cs. induction xs as [|x xs IH]; intros cs; cbn [foldl].
  - by rewrite app_nil_r.
  - rewrite InsertNextCell_of_cells, IH, <- app_assoc. done.
Qed.

Lemma foldl_InsertCellPoint {A} (g : A → Z) xs cs :
  foldl (λ ca x, InsertCellPoint (InsertNextCellN ca 1) (g x)) (of_cells cs) xs
  = of_cells (cs ++ ((λ x, [g x]) <$> xs)).
Proof.
  revert cs. induction xs as [|x xs IH]; intros cs; cbn [foldl].
  - by rewrite app_nil_r.
  - rewrite InsertCellPoint_of_cells, IH, <- app_assoc. done.
Qed.


Lemma vert_cells_spec n :
  vert_cells n = of_cells ((λ i, [Z.of_nat i]) <$> seq 0 n).
Proof.
  unfold vert_cells, range. rewrite of_cells_nil, foldl_InsertCellPoint.
  cbn [app]. do 3 f_equal. lia.
Qed.

(** ** Allocation of the rows of a fresh array *)

Lemma row_lookup (h : gmap nat (list Z)) l r : h !! l = Some r → row h l = r.
Proof. intros H. unfold row. by rewrite lookup_total_alt, H. Qed.

Lemma row_length_lookup (h : gmap nat (list Z)) l :
  row h l ≠ [] → h !! l = Some (row h l).
Proof.
  unfold row. rewrite lookup_total_alt. by destruct (h !! l).
Qed.

Lemma alloc_rows_spec rows : ∀ (h h' : gmap nat (list Z)) ls,
  alloc_rows h rows = (ls, h') →
  NoDup ls ∧ (∀ l, l ∈ ls → h !! l = None) ∧ h ⊆ h' ∧ row h' <$> ls = rows.
Proof.
  induction rows as [|r rows IH]; intros h h' ls; cbn [alloc_rows].
  - intros [= <- <-]. split_and!; [constructor|set_solver|done|done].
  - unfold alloc.
    destruct (alloc_rows (<[fresh (dom h):=r]> h) rows) as [ls1 h2] eqn:E.
    intros [= <- <-]. destruct (IH _ _ _ E) as (Hnd & Hfr & Hsub & Hrows).
    assert (Hf : h !! fresh (dom h) = None)
      by (apply not_elem_of_dom, is_fresh).
    assert (Hnew : h2 !! fresh (dom h) = Some r).
    { eapply lookup_weaken; [|exact Hsub]. apply lookup_insert_eq. }
    split_and!.
    + constructor; [|done]. intros Hin. apply Hfr in Hin.
      by rewrite lookup_insert_eq in Hin.
    + intros l [->|Hin]%elem_of_cons; [done|].
      apply Hfr in Hin. apply lookup_insert_None in Hin. tauto.
    + etrans; [|exact Hsub]. by apply insert_subseteq.
    + cbn [fmap list_fmap]. f_equal; [by apply row_lookup|exact Hrows].
Qed.

(** ** The slow loop, one face at a time *)

Lemma adjust_0 f : adjust 0 f = f.
Proof.
  unfold adjust. induction f as [|v f IH]; cbn; [done|].
  rewrite IH. f_equal. lia.
Qed.

Lemma adjust_range off (f : list Z) :
  (λ i, (f !!! i - off)%Z) <$> range 0 (length f) = adjust off f.
Proof.
  unfold range, adjust. rewrite Nat.sub_0_r.
  apply list_eq. intros i. rewrite !list_lookup_fmap.
  destruct (f !! i) as [v|] eqn:E; cbn.
  - rewrite lookup_seq_lt by (by eapply lookup_lt_Some). cbn.
    by rewrite (list_lookup_total_correct _ _ _ E).
  - rewrite lookup_seq_ge; [done|]. by apply lookup_ge_None.
Qed.

Lemma isub_four off l (h : gmap nat (list Z)) a b c d :
  h !! l = Some [a; b; c; d] →
  foldl (isub off l) h [0; 1; 2; 3] = <[l := adjust off [a; b; c; d]]> h.
Proof.
  intros H. cbn [foldl]. unfold isub.
  apply map_eq. intros k. destruct (decide (k = l)) as [->|Hne].
  - rewrite lookup_insert_eq. rewrite !lookup_alter_eq, H. done.
  - rewrite lookup_insert_ne by done. by rewrite !lookup_alter_ne.
Qed.

Lemma face_cells_other off f : length f ≠ 4 → face_cells off f = [adjust off f].
Proof.
  unfold face_cells, adjust.
  destruct f as [|a [|b [|c [|d [|e f]]]]]; cbn; intros; done.
Qed.

Lemma face_cells_four off a b c d :
  face_cells off [a; b; c; d]
  = [[a - off; b - off; c - off]; [a - off; b - off; d - off];
     [b - off; c - off; d - off]; [c - off; d - off; a - off]]%Z.
Proof. done. Qed.

Lemma slow_body_spec off (h : gmap nat (list Z)) cs l :
  slow_body off (h, of_cells cs) l
  = (touch off h l, of_cells (cs ++ face_cells off (row h l))).
Proof.
  unfold slow_body, touch.
  destruct (length (row h l) =? 3) eqn:E3.
  { apply Nat.eqb_eq in E3.
    rewrite face_cells_other by lia.
    rewrite <- E3 at 1. rewrite adjust_range, InsertNextCell_of_cells.
    by rewrite E3. }
  destruct (length (row h l) =? 4) eqn:E4; cbn [andb].
  - destruct (row h l) as [|a [|b [|c [|d [|e f]]]]] eqn:E; try done.
    assert (Hl : h !! l = Some [a; b; c; d]).
    { rewrite <- E. apply row_length_lookup. by rewrite E. }
    destruct (off =? 0)%Z eqn:Ez; cbn [negb].
    + apply Z.eqb_eq in Ez as ->. rewrite E, face_cells_four.
      cbn [lookup_total list_lookup_total].
      rewrite !InsertNextCell_of_cells, <- !app_assoc, !Z.sub_0_r. done.
    + rewrite (isub_four _ _ _ _ _ _ _ Hl).
      rewrite (row_lookup _ _ _ (lookup_insert_eq _ _ _)).
      rewrite !InsertNextCell_of_cells, <- !app_assoc. done.
  - apply Nat.eqb_neq in E4.
    by rewrite adjust_range, InsertNextCell_of_cells, face_cells_other.
Qed.

Lemma slow_loop_spec off ls : ∀ (h : gmap nat (list Z)) cs,
  foldl (slow_body off) (h, of_cells cs) ls
  = (foldl (touch off) h ls, of_cells (cs ++ run_cells off h ls)).
Proof.
  induction ls as [|l ls IH]; intros h cs; cbn [foldl run_cells].
  - by rewrite app_nil_r.
  - by rewrite slow_body_spec, IH, <- app_assoc.
Qed.

Lemma slow_cells_spec off (h : gmap nat (list Z)) ls :
  slow_cells off h ls = (foldl (touch off) h ls, of_cells (run_cells off h ls)).
Proof. unfold slow_cells. rewrite of_cells_nil. apply slow_loop_spec. Qed.

Lemma touch_0 (h : gmap nat (list Z)) l : touch 0 h l = h.
Proof. unfold touch. by rewrite andb_false_r. Qed.

Lemma touch_lookup_ne off (h : gmap nat (list Z)) l l' :
  l ≠ l' → touch off h l !! l' = h !! l'.
Proof.
  intros Hne. unfold touch.
  destruct (_ && _); [by rewrite lookup_insert_ne|done].
Qed.

Lemma touch_row_ne off (h : gmap nat (list Z)) l l' :
  l ≠ l' → row (touch off h l) l' = row h l'.
Proof.
  intros Hne. unfold row. by rewrite !lookup_total_alt, touch_lookup_ne.
Qed.

Lemma touch_rows_notin off (h : gmap nat (list Z)) l (ls : list nat) :
  l ∉ ls → row (touch off h l) <$> ls = row h <$> ls.
Proof.
  intros Hnin. apply Forall_fmap_ext_1, Forall_forall. intros l' Hin.
  apply touch_row_ne. intros ->. done.
Qed.

Lemma foldl_touch_0 ls (h : gmap nat (list Z)) : foldl (touch 0) h ls = h.
Proof. induction ls as [|l ls IH]; cbn [foldl]; [done|]. by rewrite touch_0. Qed.

Lemma foldl_touch_notin off ls : ∀ (h : gmap nat (list Z)) l',
  l' ∉ ls → foldl (touch off) h ls !! l' = h !! l'.
Proof.
  induction ls as [|l ls IH]; intros h l' Hnin; cbn [foldl]; [done|].
  apply not_elem_of_cons in Hnin as [Hne Hnin].
  rewrite IH by done. by apply touch_lookup_ne.
Qed.


Lemma run_cells_0 ls (h : gmap nat (list Z)) :
  run_cells 0 h ls = concat (face_cells 0 <$> (row h <$> ls)).
Proof.
  induction ls as [|l ls IH]; cbn [run_cells fmap list_fmap concat]; [done|].
  by rewrite touch_0, IH.
Qed.

Lemma run_cells_NoDup off ls : ∀ h : gmap nat (list Z),
  NoDup ls → run_cells off h ls = concat (face_cells off <$> (row h <$> ls)).
Proof.
  induction ls as [|l ls IH]; intros h Hnd;
    cbn [run_cells fmap list_fmap concat]; [done|].
  apply NoDup_cons in Hnd as [Hl Hnd].
  rewrite IH by done. by rewrite touch_rows_notin.
Qed.






(** ** The fast path keeps representable indices *)

Section Fast.

Variable id_size : Z.

Lemma astype_f64 v : exact_id id_size v → astype id_size (f64 v) = v.
Proof.
  intros [Ha [Hlo Hhi]]. unfold f64, astype, cast_signed.
  destruct (Z.leb_spec (Z.abs v) (2 ^ 53)) as [_|?]; [|lia].
  destruct (Z.leb_spec (- 2 ^ (ast_bits id_size - 1)) v) as [_|?]; [|lia].
  destruct (Z.ltb_spec v (2 ^ (ast_bits id_size - 1))) as [_|?]; [|lia].
  done.
Qed.

Lemma fmap_astype_f64 r :
  Forall (exact_id id_size) r → astype id_size <$> (f64 <$> r) = r.
Proof.
  induction 1 as [|v r Hv _ IH]; [done|]. cbn. by rewrite astype_f64, IH.
Qed.

Lemma encode_uniform nc rows :
  Forall (λ r, length r = nc) rows →
  concat ((λ r, Z.of_nat nc :: r) <$> rows) = encode rows.
Proof.
  unfold encode. induction 1 as [|r rows Hr _ IH]; cbn; [done|].
  by rewrite IH, Hr.
Qed.

Lemma fast_cells_spec dt nc rows :
  dt ≠ PyObject →
  Forall (λ r, length r = nc) rows →
  exact_id id_size (Z.of_nat nc) →
  Forall (Forall (exact_id id_size)) rows →
  fast_cells id_size dt (length rows) nc rows = inr (of_cells rows).
Proof.
  intros Hdt Hlen Hnc Hrows.
  assert (E : (λ r : list Z, astype id_size <$> r) <$> hstack_counts nc rows
              = (λ r, Z.of_nat nc :: r) <$> rows).
  { unfold hstack_counts. rewrite <- list_fmap_compose.
    apply Forall_fmap_ext_1. eapply Forall_impl; [exact Hrows|].
    intros r Hr. cbn. by rewrite astype_f64, fmap_astype_f64. }
  unfold fast_cells. rewrite E, encode_uniform by done.
  by destruct dt.
Qed.

End Fast.

(** ** The builder, part by part *)

Section BuilderFacts.

Context {coord : Type}.
Variable czero : coord.
Variable id_size : Z.

Lemma build_none h vertices lines off fast :
  buildPolyData czero id_size h vertices None lines off fast
  = match prelude czero vertices lines with
    | inl e => (inl e, h)
    | inr poly =>
        (inr (SetVerts poly (vert_cells (length (make3d czero vertices)))), h)
    end.
Proof.
  unfold buildPolyData, prelude. destruct vertices as [|v vs]; [done|].
  by destruct (numpy_to_vtk _).
Qed.

Lemma build_faces h vertices fs lines off fast :
  buildPolyData czero id_size h vertices (Some fs) lines off fast
  = match prelude czero vertices lines with
    | inl e => (inl e, h)
    | inr poly =>
        match polygons id_size h fs off fast with
        | (inl e, h') => (inl e, h')
        | (inr ca, h') => (inr (SetPolys poly ca), h')
        end
    end.
Proof.
  unfold buildPolyData, prelude, polygons. destruct vertices as [|v vs]; [done|].
  destruct (numpy_to_vtk _); [|done].
  destruct (np_array h fs) as [arr h1].
  destruct (use_fast arr off fast).
  - destruct arr; [|done]. by destruct (fast_cells _ _ _ _ _).
  - destruct arr; [by destruct (slow_cells_typed _ _ _)|].
    by destruct (slow_cells _ _ _).
Qed.

(** *** Points *)

Lemma len0_c_zeros (a : list (list coord)) :
  a ≠ [] → len0 (c_zeros czero a) = S (len0 a).
Proof.
  destruct a as [|r a]; [done|]. intros _. unfold len0. cbn.
  rewrite length_app. cbn. lia.
Qed.

Lemma rectangular_Forall {A} (a : list (list A)) :
  rectangular a = true ↔ Forall (λ r, length r = len0 a) a.
Proof.
  unfold rectangular. rewrite forallb_forall, Forall_forall.
  split; intros H r Hr.
  - apply Nat.eqb_eq, H. by apply list_elem_of_In.
  - apply Nat.eqb_eq, H. by apply list_elem_of_In.
Qed.

Lemma rectangular_c_zeros (a : list (list coord)) :
  a ≠ [] → rectangular a = true → rectangular (c_zeros czero a) = true.
Proof.
  intros Hne. rewrite !rectangular_Forall, len0_c_zeros by done.
  unfold c_zeros. rewrite Forall_fmap. intros H.
  eapply Forall_impl; [exact H|].
  intros r Hr. unfold compose. rewrite length_app, Hr. cbn [length]. lia.
Qed.

Lemma c_zeros_nonempty (a : list (list coord)) : a ≠ [] → c_zeros czero a ≠ [].
Proof. by destruct a. Qed.

Lemma make3d_good vertices :
  good_vertices vertices → good_vertices (make3d czero vertices).
Proof.
  intros [Hne Hrect]. unfold make3d.
  destruct (len0 vertices <? 3); [|done].
  destruct (len0 (c_zeros czero vertices) =? 2).
  - split; [by do 2 apply c_zeros_nonempty|].
    apply rectangular_c_zeros; [by apply c_zeros_nonempty|].
    by apply rectangular_c_zeros.
  - split; [by apply c_zeros_nonempty|]. by apply rectangular_c_zeros.
Qed.

Lemma make3d_length vertices : length (make3d czero vertices) = length vertices.
Proof.
  unfold make3d, c_zeros.
  destruct (len0 vertices <? 3); [|done].
  destruct (len0 _ =? 2); by rewrite ?length_fmap.
Qed.

Lemma prelude_good vertices lines :
  good_vertices vertices → prelude czero vertices lines = inr (base_poly czero vertices lines).
Proof.
  intros Hg. pose proof (make3d_good _ Hg) as [_ Hrect].
  destruct Hg as [Hne _]. unfold prelude, numpy_to_vtk.
  destruct vertices as [|v vs]; [done|]. rewrite Hrect.
  by destruct lines.
Qed.



End BuilderFacts.

(** ** What [np.array] makes of a face table *)

Lemma np_array_nil (h : gmap nat (list Z)) : np_array h [] = (Array1 [], h).
Proof. done. Qed.

Lemma np_array_ragged (h : gmap nat (list Z)) fs :
  rectangular (row h <$> fs) = false → np_array h fs = (Array1 fs, h).
Proof.
  intros H. unfold np_array. destruct fs as [|l fs]; [done|]. by rewrite H.
Qed.

Lemma np_array_rect (h : gmap nat (list Z)) fs :
  fs ≠ [] → rectangular (row h <$> fs) = true →
  ∃ views h',
    np_array h fs
    = (Array2 (dtype_of (row h <$> fs)) (length (row h <$> fs))
         (len0 (row h <$> fs)) views, h')
    ∧ NoDup views ∧ (∀ l, l ∈ views → h !! l = None) ∧ h ⊆ h'
    ∧ row h' <$> views = row h <$> fs.
Proof.
  intros Hne H. unfold np_array. destruct fs as [|l fs]; [done|]. rewrite H.
  destruct (alloc_rows h (row h <$> l :: fs)) as [views h'] eqn:E.
  exists views, h'. split; [done|]. by apply alloc_rows_spec.
Qed.

Lemma use_fast_true (h : gmap nat (list Z)) fs off fast :
  use_fast (np_array h fs).1 off fast = true
  ↔ fs ≠ [] ∧ rectangular (row h <$> fs) = true ∧ off = 0%Z ∧ fast = true.
Proof.
  unfold use_fast. rewrite !andb_true_iff, Z.eqb_eq, Nat.eqb_eq.
  destruct (decide (fs = [])) as [->|Hne].
  { cbn. split; intros; destruct_and?; done. }
  destruct (rectangular (row h <$> fs)) eqn:E.
  - destruct (np_array_rect h fs Hne E) as (views & h' & -> & _). cbn.
    split; intros; destruct_and?; split_and?; done.
  - rewrite (np_array_ragged h fs E). cbn.
    split; intros; destruct_and?; done.
Qed.

(** *** Typed arrays *)

Lemma in_int64_spec v : in_int64 v = true ↔ (- 2 ^ 63 ≤ v < 2 ^ 63)%Z.
Proof. unfold in_int64. rewrite andb_true_iff, Z.leb_le, Z.ltb_lt. done. Qed.

Lemma discover_int64 v : in_int64 v = true → discover v = Int64.
Proof. unfold discover. by intros ->. Qed.

Lemma wrap_int64_id v : in_int64 v = true → wrap_int64 v = v.
Proof.
  intros H%in_int64_spec. unfold wrap_int64.
  rewrite Z.mod_small; lia.
Qed.

Lemma dtype_of_int64 rows :
  Forall (Forall (λ v, in_int64 v = true)) rows →
  dtype_of rows = Int64 ∨ (dtype_of rows = Float64 ∧ concat rows = []).
Proof.
  intros H. apply Forall_concat in H. unfold dtype_of.
  destruct (concat rows) as [|v vs]; [by right|]. left.
  apply Forall_cons in H as [Hv Hvs]. rewrite (discover_int64 v Hv).
  induction Hvs as [|x vs Hx _ IH]; [done|]. cbn.
  by rewrite (discover_int64 x Hx).
Qed.

Lemma exact_id_int64 id_size v : exact_id id_size v → in_int64 v = true.
Proof. intros [H _]. apply in_int64_spec. lia. Qed.

Lemma int64_ok_rows off rows :
  int64_ok off rows → Forall (Forall (λ v, in_int64 v = true)) rows.
Proof.
  intros [_ H]. eapply Forall_impl; [exact H|]. intros r Hr.
  eapply Forall_impl; [exact Hr|]. by intros v [? _].
Qed.

Lemma int64_ok_0 rows :
  Forall (Forall (λ v, in_int64 v = true)) rows → int64_ok 0 rows.
Proof.
  intros H. split; [done|]. eapply Forall_impl; [exact H|]. intros r Hr.
  eapply Forall_impl; [exact Hr|]. intros v Hv. by rewrite Z.sub_0_r.
Qed.

Lemma elem_sub_int64 v off :
  in_int64 off = true → in_int64 (v - off) = true →
  elem_sub Int64 v off = inr (SInt (v - off)).
Proof.
  intros Ho Hv. unfold elem_sub. rewrite (discover_int64 off Ho). cbn.
  by rewrite wrap_int64_id.
Qed.

Lemma set_ids_int64 off f :
  in_int64 off = true →
  Forall (λ v, in_int64 v = true ∧ in_int64 (v - off) = true) f →
  set_ids Int64 off f = inr (adjust off f).
Proof.
  intros Ho. induction 1 as [|v f [_ Hv] _ IH]; [done|].
  cbn [set_ids]. rewrite elem_sub_int64 by done. cbn [SetId].
  by rewrite IH.
Qed.

Lemma isub_typed_int64 off f :
  in_int64 off = true →
  Forall (λ v, in_int64 v = true ∧ in_int64 (v - off) = true) f →
  isub_typed Int64 off f = inr (adjust off f).
Proof.
  intros Ho. induction 1 as [|v f [_ Hv] _ IH]; [done|].
  cbn [isub_typed]. rewrite elem_sub_int64 by done. cbn [store_elem].
  by rewrite Hv, IH.
Qed.

Lemma foldl_InsertNextCell_cells cs cs' :
  foldl InsertNextCell (of_cells cs) cs' = of_cells (cs ++ cs').
Proof.
  rewrite <- (list_fmap_id cs') at 2. apply (foldl_InsertNextCell id).
Qed.

Lemma slow_body_typed_ok dt off cs f :
  in_int64 off = true →
  Forall (λ v, in_int64 v = true ∧ in_int64 (v - off) = true) f →
  dt = Int64 ∨ f = [] →
  slow_body_typed dt off (of_cells cs) f
  = inr (of_cells (cs ++ face_cells off f)).
Proof.
  intros Ho Hf [-> | ->].
  - unfold slow_body_typed.
    destruct (length f =? 4) eqn:E4.
    + apply Nat.eqb_eq in E4.
      destruct f as [|a [|b [|c [|d [|]]]]]; try done. cbn [length Nat.eqb].
      assert (Hq : ∀ a b c d cs,
                quad_ids (elem Int64 a) (elem Int64 b) (elem Int64 c)
                  (elem Int64 d)
                = inr [[a; b; c]; [a; b; d]; [b; c; d]; [c; d; a]]) by done.
      destruct (Z.eqb_spec off 0) as [-> |Hne].
      * cbn [lookup_total list_lookup_total]. rewrite Hq by done.
        rewrite foldl_InsertNextCell_cells. do 3 f_equal.
        unfold face_cells. by rewrite adjust_0.
      * rewrite isub_typed_int64 by done.
        cbn [adjust fmap list_fmap lookup_total list_lookup_total].
        rewrite Hq by done. by rewrite foldl_InsertNextCell_cells.
    + apply Nat.eqb_neq in E4. rewrite face_cells_other by done.
      rewrite set_ids_int64 by done.
      assert (E : InsertNextCell (of_cells cs) (adjust off f)
                  = of_cells (cs ++ [adjust off f])).
      { by rewrite <- (foldl_InsertNextCell_cells cs [adjust off f]). }
      rewrite E. by destruct (length f =? 3).
  - cbn. f_equal.
    by rewrite <- (foldl_InsertNextCell_cells cs [[]]).
Qed.

Lemma slow_loop_typed_ok dt off rows : ∀ cs,
  int64_ok off rows →
  dt = Int64 ∨ concat rows = [] →
  slow_loop_typed dt off (of_cells cs) rows
  = inr (of_cells (cs ++ concat (face_cells off <$> rows))).
Proof.
  induction rows as [|f rows IH]; intros cs [Ho Hrows] Hdt.
  - cbn. by rewrite app_nil_r.
  - apply Forall_cons in Hrows as [Hf Hrows]. cbn [slow_loop_typed].
    rewrite (slow_body_typed_ok dt off cs f Ho Hf).
    + rewrite IH; [by rewrite <- app_assoc|done|].
      destruct Hdt as [?|H]; [by left|right].
      cbn in H. by apply app_eq_nil in H as [_ ?].
    + destruct Hdt as [?|H]; [by left|right].
      cbn in H. by apply app_eq_nil in H as [? _].
Qed.

Lemma slow_cells_typed_ok off rows :
  int64_ok off rows →
  slow_cells_typed (dtype_of rows) off rows
  = inr (of_cells (concat (face_cells off <$> rows))).
Proof.
  intros Hok. unfold slow_cells_typed.
  change empty_cells with (of_cells []).
  rewrite slow_loop_typed_ok; [done|done|].
  destruct (dtype_of_int64 rows (int64_ok_rows _ _ Hok)) as [?|[_ ?]];
    [by left|by right].
Qed.

Section PolygonFacts.

Variable id_size : Z.

Lemma polygons_fast (h : gmap nat (list Z)) fs :
  fs ≠ [] → rectangular (row h <$> fs) = true →
  exact_id id_size (Z.of_nat (len0 (row h <$> fs))) →
  Forall (Forall (exact_id id_size)) (row h <$> fs) →
  ∃ h', polygons id_size h fs 0 true = (inr (of_cells (row h <$> fs)), h')
        ∧ h ⊆ h'.
Proof.
  intros Hne Hrect Hnc Hex.
  destruct (np_array_rect h fs Hne Hrect) as (views & h' & E & _ & _ & Hsub & Hrows).
  exists h'. split; [|done]. unfold polygons. rewrite E. cbn [use_fast shape_len].
  cbn [Nat.eqb Z.eqb andb]. rewrite Hrows.
  rewrite fast_cells_spec; [done| | |done|done].
  - assert (H64 : Forall (Forall (λ v, in_int64 v = true)) (row h <$> fs)).
    { eapply Forall_impl; [exact Hex|]. intros r Hr.
      eapply Forall_impl; [exact Hr|]. intros v. apply exact_id_int64. }
    destruct (dtype_of_int64 _ H64) as [-> |[-> _]]; done.
  - by apply rectangular_Forall.
Qed.

Lemma polygons_slow (h : gmap nat (list Z)) fs off fast :
  use_fast (np_array h fs).1 off fast = false →
  (rectangular (row h <$> fs) = true → int64_ok off (row h <$> fs)) →
  (rectangular (row h <$> fs) = false → off = 0%Z ∨ NoDup fs) →
  ∃ h', polygons id_size h fs off fast
        = (inr (of_cells (concat (face_cells off <$> (row h <$> fs)))), h').
Proof.
  intros Hslow Hrect Hrag. unfold polygons.
  destruct (np_array h fs) as [arr h1] eqn:E. cbn [fst] in Hslow. rewrite Hslow.
  destruct (decide (fs = [])) as [->|Hne].
  { rewrite np_array_nil in E. inv E. rewrite slow_cells_spec. by eexists. }
  destruct (rectangular (row h <$> fs)) eqn:Hr.
  - destruct (np_array_rect h fs Hne Hr) as (views & h' & E' & Hnd & _ & _ & Hrows).
    rewrite E in E'. inv E'. rewrite Hrows.
    rewrite slow_cells_typed_ok by auto. by eexists.
  - rewrite (np_array_ragged h fs Hr) in E. inv E.
    rewrite slow_cells_spec. eexists. do 3 f_equal.
    destruct (Hrag eq_refl) as [-> |Hnd];
      [apply run_cells_0|by apply run_cells_NoDup].
Qed.


Lemma polygons_store_rect (h : gmap nat (list Z)) fs off fast :
  rectangular (row h <$> fs) = true → h ⊆ (polygons id_size h fs off fast).2.
Proof.
  intros Hrect. unfold polygons.
  destruct (decide (fs = [])) as [->|Hne].
  { rewrite np_array_nil. by destruct (use_fast _ _ _). }
  destruct (np_array_rect h fs Hne Hrect) as (views & h' & -> & _ & Hfresh & Hsub & _).
  destruct (use_fast _ _ _).
  - by destruct (fast_cells _ _ _ _ _).
  - by destruct (slow_cells_typed _ _ _).
Qed.

Lemma polygons_store_ragged (h : gmap nat (list Z)) fs off fast :
  rectangular (row h <$> fs) = false →
  (polygons id_size h fs off fast).2 = foldl (touch off) h fs.
Proof.
  intros Hrag. unfold polygons. rewrite (np_array_ragged h fs Hrag).
  cbn [use_fast shape_len Nat.eqb andb]. by rewrite slow_cells_spec.
Qed.

End PolygonFacts.

(** ** The builder on good input *)

Lemma exact_id_small id_size v : (0 ≤ v < 2 ^ 31)%Z → exact_id id_size v.
Proof.
  intros Hv. unfold exact_id, ast_bits.
  destruct (id_size =? 4)%Z; cbn; lia.
Qed.

Lemma adjust_succ r : adjust 1 (Z.succ <$> r) = r.
Proof.
  unfold adjust. rewrite <- list_fmap_compose.
  rewrite <- (list_fmap_id r) at 2. apply Forall_fmap_ext_1, Forall_forall.
  intros v _. cbn. lia.
Qed.

Lemma face_cells_shift r : face_cells 1 (Z.succ <$> r) = face_cells 0 r.
Proof. unfold face_cells. by rewrite adjust_succ, adjust_0. Qed.

Section BuildFacts.

Context {coord : Type}.
Variable czero : coord.
Variable id_size : Z.

Lemma build_none_ok h (vertices : list (list coord)) lines off fast :
  good_vertices vertices →
  buildPolyData czero id_size h vertices None lines off fast
  = (inr (SetVerts (base_poly czero vertices lines)
            (of_cells ((λ i, [Z.of_nat i]) <$> seq 0 (length vertices)))), h).
Proof.
  intros Hg. rewrite build_none, (prelude_good _ _ _ Hg).
  by rewrite vert_cells_spec, make3d_length.
Qed.

Lemma build_fast_ok h (vertices : list (list coord)) fs lines :
  good_vertices vertices →
  fs ≠ [] → rectangular (row h <$> fs) = true →
  exact_id id_size (Z.of_nat (len0 (row h <$> fs))) →
  Forall (Forall (exact_id id_size)) (row h <$> fs) →
  ∃ h', buildPolyData czero id_size h vertices (Some fs) lines 0 true
        = (inr (SetPolys (base_poly czero vertices lines)
                  (of_cells (row h <$> fs))), h')
        ∧ h ⊆ h'.
Proof.
  intros Hg Hne Hrect Hnc Hex.
  destruct (polygons_fast id_size h fs Hne Hrect Hnc Hex) as (h' & E & Hsub).
  exists h'. split; [|done].
  by rewrite build_faces, (prelude_good _ _ _ Hg), E.
Qed.

Lemma build_slow_ok h (vertices : list (list coord)) fs lines off fast :
  good_vertices vertices →
  use_fast (np_array h fs).1 off fast = false →
  (rectangular (row h <$> fs) = true → int64_ok off (row h <$> fs)) →
  (rectangular (row h <$> fs) = false → off = 0%Z ∨ NoDup fs) →
  ∃ h', buildPolyData czero id_size h vertices (Some fs) lines off fast
        = (inr (SetPolys (base_poly czero vertices lines)
                  (of_cells (concat (face_cells off <$> (row h <$> fs))))), h').
Proof.
  intros Hg Hslow Hrect Hrag.
  destruct (polygons_slow id_size h fs off fast Hslow Hrect Hrag) as (h' & E).
  exists h'. by rewrite build_faces, (prelude_good _ _ _ Hg), E.
Qed.


Lemma build_fst_faces h (vertices : list (list coord)) fs lines off fast :
  (buildPolyData czero id_size h vertices (Some fs) lines off fast).1
  = match prelude czero vertices lines with
    | inl e => inl e
    | inr poly =>
        match (polygons id_size h fs off fast).1 with
        | inl e => inl e
        | inr ca => inr (SetPolys poly ca)
        end
    end.
Proof.
  rewrite build_faces. destruct (prelude _ _ _); [done|].
  by destruct (polygons _ _ _ _ _) as [[e|ca] h1].
Qed.

Lemma build_store h (vertices : list (list coord)) faces lines off fast :
  (buildPolyData czero id_size h vertices faces lines off fast).2
  = match prelude czero vertices lines, faces with
    | inr _, Some fs => (polygons id_size h fs off fast).2
    | _, _ => h
    end.
Proof.
  destruct faces as [fs|].
  - rewrite build_faces. destruct (prelude _ _ _); [done|].
    by destruct (polygons _ _ _ _ _) as [[e|ca] h1].
  - rewrite build_none. by destruct (prelude _ _ _).
Qed.

End BuildFacts.

Lemma good_square : good_vertices square.
Proof. split; [done|reflexivity]. Qed.



Lemma rectangular_fmap {A B} (g : A → B) (rows : list (list A)) :
  rectangular (fmap (M:=list) g <$> rows) = rectangular rows.
Proof.
  assert (Hlen : len0 (fmap (M:=list) g <$> rows) = len0 rows).
  { destruct rows as [|r rows]; [done|]. unfold len0. cbn.
    apply length_fmap. }
  unfold rectangular. rewrite Hlen. generalize (len0 rows). clear Hlen.
  intros n. induction rows as [|r rows IH]; [done|].
  rewrite fmap_cons. cbn [forallb]. by rewrite length_fmap, IH.
Qed.

(** ** The claims *)

(** C1 (as amended). With the unit square, [faces=[[0,1,2,3]]],
    [indexOffset=0] and every other argument at its default, the table is
    rectangular, the fast path is taken and the mesh has exactly one polygon
    cell, the quad [0,1,2,3]. The four triangles (0,1,2), (0,1,3), (1,2,3),
    (2,3,0) are what the same call produces with [fast=False]. *)
Theorem C1_square_quad_by_default (id_size : Z) :
  (∃ m h', buildPolyData 0%Z id_size quad_store square (Some [0]) None 0 true
           = (inr m, h')
           ∧ use_fast (np_array quad_store [0]).1 0 true = true
           ∧ ncells (Polys m) = 1
           ∧ cells (Polys m) = [[0; 1; 2; 3]]%Z)
  ∧ (∃ m h', buildPolyData 0%Z id_size quad_store square (Some [0]) None 0 false
             = (inr m, h')
             ∧ ncells (Polys m) = 4
             ∧ cells (Polys m)
               = [[0; 1; 2]; [0; 1; 3]; [1; 2; 3]; [2; 3; 0]]%Z).
Proof.
  split.
  - destruct (build_fast_ok 0%Z id_size quad_store square [0] None)
      as (h' & E & _).
    + exact good_square.
    + done.
    + reflexivity.
    + apply exact_id_small. by vm_compute.
    + repeat constructor; apply exact_id_small; by vm_compute.
    + eexists _, h'. split; [exact E|].
      cbn [Polys SetPolys]. rewrite cells_of_cells. by split_and!.
  - destruct (build_slow_ok 0%Z id_size quad_store square [0] None 0 false)
      as (h' & E).
    + exact good_square.
    + reflexivity.
    + intros _. by_eval.
    + by left.
    + eexists _, h'. split; [exact E|].
      cbn [Polys SetPolys]. rewrite cells_of_cells. by split.
Qed.

(** C1, the claim as stated fails: under the defaults the square's single
    4-vertex row comes out as one quad, not as four triangles. *)
Lemma C1_default_call_gives_no_triangles :
  ∃ m h', buildPolyData 0%Z 8 quad_store square (Some [0]) None 0 true
          = (inr m, h')
          ∧ cells (Polys m) = [[0; 1; 2; 3]]%Z
          ∧ cells (Polys m) ≠ [[0; 1; 2]; [0; 1; 3]; [1; 2; 3]; [2; 3; 0]]%Z.
Proof.
  eexists _, _. split; [vm_compute; reflexivity|].
  split; [reflexivity|discriminate].
Qed.






(** A ragged table numbered from 1 (a triangle, a 4-vertex row, a
    pentagon), read off the mesh. *)
Example ragged_table_built :
  ∃ m h', buildPolyData 0%Z 8 ragged_store1 square (Some [0; 1; 2]) None 1 true
          = (inr m, h')
    ∧ cells (Polys m)
      = [[0; 1; 2];
         [0; 1; 2]; [0; 1; 3]; [1; 2; 3]; [2; 3; 0];
         [0; 1; 2; 3; 0]]%Z
    ∧ h' !! 1 = Some [0; 1; 2; 3]%Z.
Proof. eexists _, _. split; [vm_compute; reflexivity|]. by split. Qed.


(** A rectangular table with an index beyond int64 is a float64 array, and
    [SetId] refuses its elements: on the slow path the build raises
    [TypeError]; on the fast path the index is stored as the least id. *)
Example float_table_raises :
  dtype_of [[0; 1; 2 ^ 63]]%Z = Float64
  ∧ (buildPolyData 0%Z 8 {[ 0 := [0; 1; 2 ^ 63]%Z ]} square (Some [0]) None
       0 false).1 = inl TypeError
  ∧ ∃ m h', buildPolyData 0%Z 8 {[ 0 := [0; 1; 2 ^ 63]%Z ]} square (Some [0])
              None 0 true = (inr m, h')
            ∧ cells (Polys m) = [[0; 1; - 2 ^ 63]]%Z.
Proof.
  split; [reflexivity|]. split; [vm_compute; reflexivity|].
  eexists _, _. split; [vm_compute; reflexivity|]. reflexivity.
Qed.

Lemma concat_face_cells_other off (rows : list (list Z)) :
  Forall (λ r, length r ≠ 4) rows →
  concat (face_cells off <$> rows) = adjust off <$> rows.
Proof.
  induction 1 as [|r rows Hr _ IH]; [done|].
  cbn [fmap list_fmap concat]. by rewrite face_cells_other, IH.
Qed.

Lemma adjust_0_rows (rows : list (list Z)) : adjust 0 <$> rows = rows.
Proof.
  rewrite <- (list_fmap_id rows) at 2.
  apply Forall_fmap_ext_1, Forall_forall. intros r _. apply adjust_0.
Qed.

Lemma face_cells_shift_rows (rows : list (list Z)) :
  face_cells 1 <$> (fmap Z.succ <$> rows) = face_cells 0 <$> rows.
Proof.
  rewrite <- list_fmap_compose. apply Forall_fmap_ext_1, Forall_forall.
  intros r _. apply face_cells_shift.
Qed.

(** C4 (as amended). Take a face table numbered from 0 and the table with
    every index one higher. Built with [indexOffset=0] and [indexOffset=1]
    respectively, on the same points, lines and [fast], the two meshes are
    identical, unless [fast] is set and the 0-based table is rectangular
    with 4 columns. The rows of the 1-based table are distinct objects when
    it is ragged; the indices of a rectangular table, 0-based and 1-based,
    are in the range of int64, and on the fast path they are exact ids. *)
Theorem C4_offset_shift_same_mesh {coord : Type} (czero : coord) (id_size : Z)
    (h0 h1 : gmap nat (list Z)) (vertices : list (list coord))
    (fs0 fs1 : list nat) (lines : option (list Z)) (fast : bool) :
  row h1 <$> fs1 = fmap Z.succ <$> (row h0 <$> fs0) →
  rectangular (row h1 <$> fs1) = true ∨ NoDup fs1 →
  (rectangular (row h0 <$> fs0) = true →
   Forall (Forall (λ v, in_int64 v = true ∧ in_int64 (v + 1) = true))
     (row h0 <$> fs0)) →
  (fast = true → fs0 ≠ [] → rectangular (row h0 <$> fs0) = true →
   len0 (row h0 <$> fs0) ≠ 4
   ∧ exact_id id_size (Z.of_nat (len0 (row h0 <$> fs0)))
   ∧ Forall (Forall (exact_id id_size)) (row h0 <$> fs0)) →
  (buildPolyData czero id_size h0 vertices (Some fs0) lines 0 fast).1
  = (buildPolyData czero id_size h1 vertices (Some fs1) lines 1 fast).1.
Proof.
  intros Hshift Hobj H64 Hfast. rewrite !build_fst_faces.
  destruct (prelude czero vertices lines) as [e|poly]; [done|].
  assert (Hslow1 : use_fast (np_array h1 fs1).1 1 fast = false).
  { destruct (use_fast _ _ _) eqn:E; [|done].
    apply use_fast_true in E as (_ & _ & E & _). done. }
  assert (Hrect01 : rectangular (row h1 <$> fs1)
                    = rectangular (row h0 <$> fs0)).
  { rewrite Hshift. apply rectangular_fmap. }
  destruct (polygons_slow id_size h1 fs1 1 fast Hslow1) as (h1' & E1).
  { rewrite Hrect01. intros Hr. rewrite Hshift. split; [done|].
    apply Forall_fmap. eapply Forall_impl; [exact (H64 Hr)|]. intros r Hv.
    apply Forall_fmap. eapply Forall_impl; [exact Hv|]. intros v [Hv0 Hv1].
    cbn. replace (Z.succ v - 1)%Z with v by lia.
    by replace (Z.succ v) with (v + 1)%Z by lia. }
  { intros Hr. right. destruct Hobj as [?|?]; [congruence|done]. }
  rewrite E1, Hshift, face_cells_shift_rows. cbn [fst].
  destruct (use_fast (np_array h0 fs0).1 0 fast) eqn:E.
  - apply use_fast_true in E as (Hne & Hrect & _ & ->).
    destruct (Hfast eq_refl Hne Hrect) as (Hk & Hnc & Hex).
    destruct (polygons_fast id_size h0 fs0 Hne Hrect Hnc Hex) as (h0' & E0 & _).
    rewrite E0. cbn [fst].
    rewrite concat_face_cells_other, adjust_0_rows; [done|].
    apply rectangular_Forall in Hrect.
    eapply Forall_impl; [exact Hrect|]. intros r Hr. cbn in Hr. congruence.
  - destruct (polygons_slow id_size h0 fs0 0 fast E) as (h0' & E0).
    + intros Hr. apply int64_ok_0. eapply Forall_impl; [exact (H64 Hr)|].
      intros r Hv. eapply Forall_impl; [exact Hv|]. by intros v [? _].
    + by left.
    + by rewrite E0.
Qed.

(** C4 at a concrete input: the two triangles of the square, numbered from
    0 and from 1, under the defaults. *)
Lemma C4_witness :
  row tri_store1 <$> [0; 1] = fmap Z.succ <$> (row tri_store <$> [0; 1])
  ∧ (rectangular (row tri_store1 <$> [0; 1]) = true ∨ NoDup [0; 1])
  ∧ (rectangular (row tri_store <$> [0; 1]) = true →
     Forall (Forall (λ v, in_int64 v = true ∧ in_int64 (v + 1) = true))
       (row tri_store <$> [0; 1]))
  ∧ (true = true → [0; 1] ≠ [] → rectangular (row tri_store <$> [0; 1]) = true →
     len0 (row tri_store <$> [0; 1]) ≠ 4
     ∧ exact_id 8 (Z.of_nat (len0 (row tri_store <$> [0; 1])))
     ∧ Forall (Forall (exact_id 8)) (row tri_store <$> [0; 1]))
  ∧ (buildPolyData 0%Z 8 tri_store square (Some [0; 1]) None 0 true).1
    = (buildPolyData 0%Z 8 tri_store1 square (Some [0; 1]) None 1 true).1.
Proof.
  assert (H1 : row tri_store1 <$> [0; 1]
               = fmap Z.succ <$> (row tri_store <$> [0; 1]))
    by (vm_compute; reflexivity).
  assert (H2 : rectangular (row tri_store1 <$> [0; 1]) = true ∨ NoDup [0; 1])
    by (left; vm_compute; reflexivity).
  assert (H3 : true = true → [0; 1] ≠ [] →
               rectangular (row tri_store <$> [0; 1]) = true →
               len0 (row tri_store <$> [0; 1]) ≠ 4
               ∧ exact_id 8 (Z.of_nat (len0 (row tri_store <$> [0; 1])))
               ∧ Forall (Forall (exact_id 8)) (row tri_store <$> [0; 1]))
    by (intros _ _ _; split_and!; by_eval).
  assert (H4 : rectangular (row tri_store <$> [0; 1]) = true →
               Forall (Forall (λ v, in_int64 v = true ∧ in_int64 (v + 1) = true))
                 (row tri_store <$> [0; 1]))
    by (intros _; by_eval).
  split_and!; try assumption.
  exact (C4_offset_shift_same_mesh 0%Z 8 tri_store tri_store1 square
           [0; 1] [0; 1] None true H1 H2 H4 H3).
Defined.

(** C4, the claim as stated fails: for the square's 4-vertex row under the
    defaults, the 0-based build keeps the quad and the 1-based build splits
    it into four triangles. *)
Lemma C4_quad_differs_between_offsets :
  ∃ m0 h0 m1 h1,
    buildPolyData 0%Z 8 quad_store square (Some [0]) None 0 true = (inr m0, h0)
    ∧ buildPolyData 0%Z 8 quad_store1 square (Some [0]) None 1 true = (inr m1, h1)
    ∧ row quad_store1 <$> [0] = fmap Z.succ <$> (row quad_store <$> [0])
    ∧ cells (Polys m0) = [[0; 1; 2; 3]]%Z
    ∧ cells (Polys m1) = [[0; 1; 2]; [0; 1; 3]; [1; 2; 3]; [2; 3; 0]]%Z
    ∧ cells (Polys m0) ≠ cells (Polys m1).
Proof.
  eexists _, _, _, _.
  split; [vm_compute; reflexivity|].
  split; [vm_compute; reflexivity|].
  split_and!; [reflexivity|reflexivity|reflexivity|discriminate].
Qed.

(** C5 (as amended). With zero points the builder raises [IndexError] at
    its first statement, [len(vertices[0])], whatever the other arguments;
    no mesh is returned and the store is as it was. *)
Theorem C5_no_points_raises {coord : Type} (czero : coord) (id_size : Z)
    (h : gmap nat (list Z)) (faces : option (list nat))
    (lines : option (list Z)) (off : Z) (fast : bool) :
  buildPolyData czero id_size h [] faces lines off fast = (inl IndexError, h).
Proof. unfold buildPolyData. reflexivity. Qed.

(** C5, the claim as stated fails: the build of an empty point list returns
    no mesh. *)
Lemma C5_empty_input_fails :
  (buildPolyData 0%Z 8 ∅ [] None None 0 true).1 = inl IndexError
  ∧ ∀ m : PolyData, (buildPolyData 0%Z 8 ∅ [] None None 0 true).1 ≠ inr m.
Proof. split; [reflexivity|]. intros m. discriminate. Qed.












(** The 2D scenario: three plane points become [(x, y, 0)] and, without
    faces, three vertex cells. *)
Example flat_triangle_built :
  ∃ m, buildPolyData 0%Z 8 ∅ flat_triangle None None 0 true = (inr m, ∅)
       ∧ Points m = [[0; 0; 0]; [1; 0; 0]; [1; 1; 0]]%Z
       ∧ cells (Verts m) = [[0]; [1]; [2]]%Z.
Proof. eexists. split; [vm_compute; reflexivity|]. by split. Qed.

(** C9 (as amended). For a point set of length N with at least one point,
    all points of one dimension, built without faces and without lines, the
    mesh has exactly N vertex cells, the i-th holding the single point index
    i, and no polygon cell. *)
Theorem C9_vertex_cells {coord : Type} (czero : coord) (id_size : Z)
    (h : gmap nat (list Z)) (vertices : list (list coord)) (off : Z)
    (fast : bool) :
  good_vertices vertices →
  ∃ m, buildPolyData czero id_size h vertices None None off fast = (inr m, h)
       ∧ ncells (Verts m) = length vertices
       ∧ cells (Verts m) = (λ i, [Z.of_nat i]) <$> seq 0 (length vertices)
       ∧ (∀ i, i < length vertices → cells (Verts m) !! i = Some [Z.of_nat i])
       ∧ ncells (Polys m) = 0
       ∧ cells (Polys m) = []
       ∧ cells (Lines m) = [].
Proof.
  intros Hg. eexists. split; [by apply build_none_ok|].
  cbn [Verts Polys Lines SetVerts base_poly].
  rewrite cells_of_cells, ncells_of_cells, length_fmap, length_seq.
  split_and!; try done.
  intros i Hi. rewrite list_lookup_fmap, lookup_seq_lt by done. done.
Qed.

(** C9 at a concrete input: the four corners of the unit square. *)
Lemma C9_witness :
  good_vertices square
  ∧ ∃ m, buildPolyData 0%Z 8 ∅ square None None 0 true = (inr m, ∅)
         ∧ ncells (Verts m) = length square
         ∧ cells (Verts m) = (λ i, [Z.of_nat i]) <$> seq 0 (length square)
         ∧ (∀ i, i < length square → cells (Verts m) !! i = Some [Z.of_nat i])
         ∧ ncells (Polys m) = 0
         ∧ cells (Polys m) = []
         ∧ cells (Lines m) = [].
Proof.
  assert (H1 : good_vertices square) by exact good_square.
  split; [assumption|].
  exact (C9_vertex_cells 0%Z 8 ∅ square 0 true H1).
Defined.

(** C9, the claim as stated fails for N = 0: the build of the empty point
    set raises and leaves no mesh whose vertex cells could be counted. *)
Lemma C9_no_mesh_for_zero_points :
  length (@nil (list Z)) = 0
  ∧ buildPolyData 0%Z 8 ∅ [] None None 0 true = (inl IndexError, ∅)
  ∧ ∀ m h', buildPolyData 0%Z 8 ∅ [] None None 0 true ≠ (@inr exn _ m, h').
Proof. split; [reflexivity|]. split; [reflexivity|]. intros m h'. discriminate. Qed.




(** * Other functions of utils.py: proofs *)

(** ** flatten *)

Section Flatten.

Context {A : Type}.

(** Induction over a value and the values it holds. *)
Lemma pyobj_nested_ind (P : pyobj A → Prop) :
  (∀ a, P (Atom a)) →
  (∀ items, Forall P items → P (PyList items)) →
  (∀ items, Forall P items → P (PyTuple items)) →
  ∀ o, P o.
Proof.
  intros Ha Hl Ht. fix IH 1. intros [a|items|items].
  - apply Ha.
  - apply Hl. induction items as [|o items IHitems]; constructor; [apply IH|done].
  - apply Ht. induction items as [|o items IHitems]; constructor; [apply IH|done].
Qed.

Lemma flatten_nil : flatten (@nil (pyobj A)) = [].
Proof. done. Qed.

(** The loop of [genflatten], one element at a time. *)
Lemma flatten_cons (elem : pyobj A) rest :
  flatten (elem :: rest)
  = match elem with
    | PyList items | PyTuple items => flatten items
    | Atom _ => [elem]
    end ++ flatten rest.
Proof. unfold flatten. cbn [map concat]. by destruct elem. Qed.

Lemma flatten_app (l1 l2 : list (pyobj A)) :
  flatten (l1 ++ l2) = flatten l1 ++ flatten l2.
Proof. unfold flatten. by rewrite map_app, concat_app. Qed.

Lemma genflatten_elem_atoms (o : pyobj A) :
  Forall (λ x, is_list_or_tuple x = false) (genflatten_elem o).
Proof.
  induction o as [a|items IH|items IH] using pyobj_nested_ind; cbn [genflatten_elem].
  - by repeat constructor.
  - induction IH as [|o items Ho _ IHitems]; cbn [map concat]; [constructor|].
    by apply Forall_app.
  - induction IH as [|o items Ho _ IHitems]; cbn [map concat]; [constructor|].
    by apply Forall_app.
Qed.

Lemma flatten_atoms (l : list (pyobj A)) :
  Forall (λ x, is_list_or_tuple x = false) (flatten l).
Proof.
  unfold flatten. induction l as [|o l IH]; cbn [map concat]; [constructor|].
  apply Forall_app. split; [apply genflatten_elem_atoms|done].
Qed.

Lemma flatten_flat (l : list (pyobj A)) :
  Forall (λ x, is_list_or_tuple x = false) l → flatten l = l.
Proof.
  induction 1 as [|o l Ho _ IH]; [done|].
  rewrite flatten_cons, IH. by destruct o.
Qed.

(** X1. What [flatten] returns holds no list and no tuple, whatever the
    depth of nesting of its argument; flattening it again gives it back. *)
Theorem flatten_result_is_flat (l : list (pyobj A)) :
  Forall (λ x, is_list_or_tuple x = false) (flatten l)
  ∧ flatten (flatten l) = flatten l.
Proof.
  split; [apply flatten_atoms|]. apply flatten_flat, flatten_atoms.
Qed.

(** X2. [flatten] goes through its argument from left to right: the result
    for a concatenation is the concatenation of the results, a list or a
    tuple contributes what its own items contribute (so an empty one
    contributes nothing, and lists and tuples are not told apart), and any
    other element contributes itself. *)
Theorem flatten_left_to_right (l1 l2 items : list (pyobj A)) (a : A) :
  flatten (l1 ++ l2) = flatten l1 ++ flatten l2
  ∧ flatten (PyList items :: l2) = flatten items ++ flatten l2
  ∧ flatten (PyTuple items :: l2) = flatten items ++ flatten l2
  ∧ flatten (Atom a :: l2) = Atom a :: flatten l2
  ∧ flatten (PyList [] :: PyTuple [] :: l2) = flatten l2.
Proof.
  split_and!.
  - apply flatten_app.
  - apply flatten_cons.
  - apply flatten_cons.
  - apply flatten_cons.
  - by rewrite !flatten_cons.
Qed.

Lemma elem_of_concat_map {B C} (f : B → list C) (l : list B) (x : C) :
  x ∈ concat (map f l) ↔ ∃ y, y ∈ l ∧ x ∈ f y.
Proof.
  induction l as [|b l IH]; cbn [map concat].
  - split; [by intros ?%elem_of_nil|]. by intros (y & ?%elem_of_nil & _).
  - rewrite elem_of_app, IH. split.
    + intros [H|(y & Hy & H)]; [exists b|exists y]; split; try done;
        [by left|by right].
    + intros (y & [->|Hy]%elem_of_cons & H); [by left|right; eauto].
Qed.

(** One step of [inside]. *)
Lemma inside_step (x : pyobj A) l :
  inside x l
  ↔ ∃ o, o ∈ l ∧ (x = o ∨ ∃ items, (o = PyList items ∨ o = PyTuple items)
                                   ∧ inside x items).
Proof.
  split.
  - intros H. inv H.
    + exists x. split; [done|by left].
    + exists (PyList items). split; [done|]. right. eauto.
    + exists (PyTuple items). split; [done|]. right. eauto.
  - intros (o & Ho & [-> | (items & [-> | ->] & H)]).
    + by apply inside_here.
    + by eapply inside_list.
    + by eapply inside_tuple.
Qed.

Lemma genflatten_elem_inside (a : A) (o : pyobj A) :
  Atom a ∈ genflatten_elem o
  ↔ (Atom a = o ∨ ∃ items, (o = PyList items ∨ o = PyTuple items)
                          ∧ inside (Atom a) items).
Proof.
  induction o as [b|items IH|items IH] using pyobj_nested_ind;
    cbn [genflatten_elem].
  - rewrite list_elem_of_singleton. split; [by left|].
    intros [?|(items & [?|?] & _)]; done.
  - rewrite elem_of_concat_map. split.
    + intros (o & Ho & H). right. exists items. split; [by left|].
      apply inside_step. exists o. split; [done|].
      rewrite Forall_forall in IH. by apply IH.
    + intros [?|(items' & [E|E] & H)]; try done. inv E.
      apply inside_step in H as (o & Ho & H). exists o. split; [done|].
      rewrite Forall_forall in IH. by apply IH.
  - rewrite elem_of_concat_map. split.
    + intros (o & Ho & H). right. exists items. split; [by right|].
      apply inside_step. exists o. split; [done|].
      rewrite Forall_forall in IH. by apply IH.
    + intros [?|(items' & [E|E] & H)]; try done. inv E.
      apply inside_step in H as (o & Ho & H). exists o. split; [done|].
      rewrite Forall_forall in IH. by apply IH.
Qed.

(** X3. Nothing is lost and nothing is made up: a value that is neither a
    list nor a tuple is in the result exactly when it is in the argument, at
    some depth. *)
Theorem flatten_keeps_the_atoms (a : A) (l : list (pyobj A)) :
  Atom a ∈ flatten l ↔ inside (Atom a) l.
Proof.
  unfold flatten. rewrite elem_of_concat_map, inside_step.
  split; intros (o & Ho & H); exists o; (split; [done|]);
    by apply genflatten_elem_inside.
Qed.

End Flatten.

(** ** ProgressBar *)

Module ProgressBarFacts.
Import ProgressBar.

Lemma update_fields pb c :
  start (update pb c) = start pb ∧ stop (update pb c) = stop pb
  ∧ step (update pb c) = step pb ∧ len (update pb c) = len pb.
Proof. done. Qed.


Lemma print_fields pb c :
  start (print pb c) = start pb ∧ stop (print pb c) = stop pb
  ∧ step (print pb c) = step pb ∧ len (print pb c) = len pb.
Proof. destruct c as [c|]; cbn [print]; [destruct (c =? 0)%Z|]; done. Qed.












End ProgressBarFacts.

(** ** buildPolyData: building again, the [fast] flag, the store *)

Section MoreBuilder.

Context {coord : Type}.
Variable czero : coord.
Variable id_size : Z.

(** For a rectangular table the polygon cells are a function of the
    contents of the rows. *)
Lemma polygons_rect_fst (h : gmap nat (list Z)) fs off fast :
  fs ≠ [] → rectangular (row h <$> fs) = true →
  (polygons id_size h fs off fast).1
  = if (off =? 0)%Z && fast
    then fast_cells id_size (dtype_of (row h <$> fs)) (length (row h <$> fs))
           (len0 (row h <$> fs)) (row h <$> fs)
    else slow_cells_typed (dtype_of (row h <$> fs)) off (row h <$> fs).
Proof.
  intros Hne Hrect.
  destruct (np_array_rect h fs Hne Hrect) as (views & h' & E & _ & _ & _ & Hrows).
  unfold polygons. rewrite E. unfold use_fast.
  cbn [shape_len Nat.eqb andb]. rewrite Hrows.
  destruct ((off =? 0)%Z && fast).
  - by destruct (fast_cells _ _ _ _ _).
  - by destruct (slow_cells_typed _ _ _).
Qed.

Lemma polygons_fast_fst (h : gmap nat (list Z)) fs :
  fs ≠ [] → rectangular (row h <$> fs) = true →
  (polygons id_size h fs 0 true).1
  = fast_cells id_size (dtype_of (row h <$> fs)) (length (row h <$> fs))
      (len0 (row h <$> fs)) (row h <$> fs).
Proof. intros Hne Hrect. by rewrite polygons_rect_fst. Qed.

(** The polygon cells depend on the table through the contents of its rows
    only, as long as no row is decremented twice. *)
Lemma polygons_fst_rows (h h' : gmap nat (list Z)) fs off fast :
  row h <$> fs = row h' <$> fs →
  off = 0%Z ∨ rectangular (row h <$> fs) = true ∨ NoDup fs →
  (polygons id_size h fs off fast).1 = (polygons id_size h' fs off fast).1.
Proof.
  intros Hrows Hok.
  destruct (decide (fs = [])) as [->|Hne].
  { unfold polygons. by rewrite !np_array_nil. }
  destruct (rectangular (row h <$> fs)) eqn:Hrect.
  - rewrite !polygons_rect_fst by (by rewrite <- ?Hrows). by rewrite Hrows.
  - assert (E : use_fast (np_array h fs).1 off fast = false).
    { destruct (use_fast (np_array h fs).1 off fast) eqn:E; [|done].
      apply use_fast_true in E. destruct_and!. congruence. }
    assert (E' : use_fast (np_array h' fs).1 off fast = false).
    { destruct (use_fast (np_array h' fs).1 off fast) eqn:E'; [|done].
      apply use_fast_true in E'. rewrite <- Hrows in E'.
      destruct_and!. congruence. }
    assert (Hok' : off = 0%Z ∨ NoDup fs)
      by (destruct Hok as [?|[?|?]]; [by left|done|by right]).
    destruct (polygons_slow id_size h fs off fast E) as (h1 & ->);
      [congruence|done|].
    destruct (polygons_slow id_size h' fs off fast E') as (h1' & ->);
      [rewrite <- Hrows; congruence|done|].
    cbn [fst]. by rewrite Hrows.
Qed.

Lemma rows_weaken (h h' : gmap nat (list Z)) (fs : list nat) :
  h ⊆ h' → Forall (λ l, is_Some (h !! l)) fs → row h' <$> fs = row h <$> fs.
Proof.
  intros Hsub Hall. apply Forall_fmap_ext_1.
  eapply Forall_impl; [exact Hall|]. intros l [r Hr]. cbn.
  rewrite (row_lookup _ _ _ Hr). apply row_lookup. by eapply lookup_weaken.
Qed.

(** X7. Building a second time from the same arguments, in the store the
    first build left, gives the same result as the first time when the face
    table is rectangular or [indexOffset] is 0. *)
Theorem rebuild_gives_same_mesh (h : gmap nat (list Z))
    (vertices : list (list coord)) (fs : list nat) (lines : option (list Z))
    (off : Z) (fast : bool) :
  Forall (λ l, is_Some (h !! l)) fs →
  rectangular (row h <$> fs) = true ∨ off = 0%Z →
  (buildPolyData czero id_size
     (buildPolyData czero id_size h vertices (Some fs) lines off fast).2
     vertices (Some fs) lines off fast).1
  = (buildPolyData czero id_size h vertices (Some fs) lines off fast).1.
Proof.
  intros Hrefs Hcase. rewrite !build_fst_faces, build_store.
  destruct (prelude czero vertices lines) as [e|poly]; [done|].
  assert (Hrows : row h <$> fs = row (polygons id_size h fs off fast).2 <$> fs).
  { destruct (rectangular (row h <$> fs)) eqn:Hrect.
    - symmetry. apply rows_weaken; [|done]. by apply polygons_store_rect.
    - destruct Hcase as [?| ->]; [done|].
      by rewrite polygons_store_ragged, foldl_touch_0. }
  rewrite <- (polygons_fst_rows h _ fs off fast Hrows); [done|].
  destruct Hcase; [right; by left|by left].
Qed.




Lemma polygons_flag (h : gmap nat (list Z)) fs off :
  use_fast (np_array h fs).1 off true = false →
  polygons id_size h fs off true = polygons id_size h fs off false.
Proof.
  intros E. unfold polygons in *. destruct (np_array h fs) as [arr h1].
  cbn [fst] in E. rewrite E. unfold use_fast. by rewrite andb_false_r.
Qed.

(** X9. The [fast] flag changes the mesh only for a rectangular 4-column
    table with [indexOffset=0]: with a non-zero offset, a ragged or empty
    table the flag is not looked at, and for a rectangular table of any
    other row length (indices being exact ids) the fast path stores the
    cells the slow loop would make. *)
Theorem fast_flag_matters_only_for_quads (h : gmap nat (list Z))
    (vertices : list (list coord)) (fs : list nat) (lines : option (list Z))
    (off : Z) :
  off ≠ 0%Z ∨ fs = [] ∨ rectangular (row h <$> fs) = false
  ∨ (len0 (row h <$> fs) ≠ 4
     ∧ exact_id id_size (Z.of_nat (len0 (row h <$> fs)))
     ∧ Forall (Forall (exact_id id_size)) (row h <$> fs)) →
  (buildPolyData czero id_size h vertices (Some fs) lines off true).1
  = (buildPolyData czero id_size h vertices (Some fs) lines off false).1.
Proof.
  intros Hcase. rewrite !build_fst_faces.
  destruct (prelude czero vertices lines) as [e|poly]; [done|].
  destruct (use_fast (np_array h fs).1 off true) eqn:E.
  2: { by rewrite polygons_flag. }
  apply use_fast_true in E as (Hne & Hrect & -> & _).
  destruct Hcase as [?|[?|[?|(Hk & Hnc & Hex)]]]; [done|done|congruence|].
  destruct (polygons_fast id_size h fs Hne Hrect Hnc Hex) as (h1 & -> & _).
  destruct (polygons_slow id_size h fs 0 false) as (h2 & ->);
    [unfold use_fast; by rewrite andb_false_r| |by left|].
  { intros _. apply int64_ok_0. eapply Forall_impl; [exact Hex|].
    intros r Hr. eapply Forall_impl; [exact Hr|].
    intros v. apply exact_id_int64. }
  cbn [fst]. rewrite concat_face_cells_other, adjust_0_rows; [done|].
  apply rectangular_Forall in Hrect.
  eapply Forall_impl; [exact Hrect|]. intros r Hr. cbn in Hr. congruence.
Qed.

Lemma face_cells_ids off r cell id :
  cell ∈ face_cells off r → id ∈ cell → (id + off)%Z ∈ r.
Proof.
  assert (Hadj : ∀ v, v ∈ adjust off r → (v + off)%Z ∈ r).
  { intros v (w & -> & Hw)%list_elem_of_fmap.
    by replace (w - off + off)%Z with w by lia. }
  unfold face_cells. intros Hcell Hid.
  destruct (adjust off r) as [|a [|b [|c [|d [|e f]]]]] eqn:E;
    try (apply list_elem_of_singleton in Hcell as ->; by apply Hadj).
  apply Hadj.
  repeat (apply elem_of_cons in Hcell as [-> | Hcell]);
    try (by apply elem_of_nil in Hcell);
    repeat (apply elem_of_cons in Hid as [-> | Hid]);
    try (by apply elem_of_nil in Hid);
    rewrite !elem_of_cons; eauto 10.
Qed.

(** X10. The builder checks no index and makes none up: every id of every
    polygon cell is an index of some face row minus [indexOffset], whether
    or not it addresses a point. This holds on the fast path when the row
    length and the indices are exact ids; on the slow path, for a
    rectangular table when [indexOffset], the indices and the
    offset-adjusted indices are in the range of int64, and for a ragged
    table when [indexOffset] is 0 or the rows are distinct objects. *)
Theorem polygon_ids_are_input_indices (h h' : gmap nat (list Z))
    (vertices : list (list coord)) (fs : list nat) (lines : option (list Z))
    (off : Z) (fast : bool) (m : PolyData) :
  (use_fast (np_array h fs).1 off fast = true →
   exact_id id_size (Z.of_nat (len0 (row h <$> fs)))
   ∧ Forall (Forall (exact_id id_size)) (row h <$> fs)) →
  (use_fast (np_array h fs).1 off fast = false →
   (rectangular (row h <$> fs) = true → int64_ok off (row h <$> fs))
   ∧ (rectangular (row h <$> fs) = false → off = 0%Z ∨ NoDup fs)) →
  buildPolyData czero id_size h vertices (Some fs) lines off fast = (inr m, h') →
  ∀ cell id, cell ∈ cells (Polys m) → id ∈ cell →
    ∃ l, l ∈ fs ∧ (id + off)%Z ∈ row h l.
Proof.
  intros Hfast Hslow E cell id Hcell Hid.
  rewrite build_faces in E.
  destruct (prelude czero vertices lines) as [e|poly]; [done|].
  assert (Hca : ∃ ca h1, polygons id_size h fs off fast = (inr ca, h1)
                  ∧ (ca = of_cells (concat (face_cells off <$> (row h <$> fs)))
                     ∨ off = 0%Z ∧ ca = of_cells (row h <$> fs))).
  { destruct (use_fast (np_array h fs).1 off fast) eqn:Ef.
    - destruct (Hfast eq_refl) as [Hnc Hex].
      apply use_fast_true in Ef as (Hne & Hrect & -> & ->).
      destruct (polygons_fast id_size h fs Hne Hrect Hnc Hex) as (h1 & -> & _).
      eexists _, _. split; [done|]. by right.
    - destruct (Hslow eq_refl) as [Hrect Hrag].
      destruct (polygons_slow id_size h fs off fast Ef Hrect Hrag) as (h1 & ->).
      eexists _, _. split; [done|]. by left. }
  destruct Hca as (ca & h1 & Ep & Hca). rewrite Ep in E. inv E.
  cbn [Polys SetPolys] in Hcell.
  destruct Hca as [->|[-> ->]]; rewrite cells_of_cells in Hcell.
  - apply list_elem_of_In, in_concat in Hcell as (cs & Hcs & Hcell).
    apply list_elem_of_In, list_elem_of_fmap in Hcs as (r & -> & Hr).
    apply list_elem_of_fmap in Hr as (l & -> & Hl).
    exists l. split; [done|].
    eapply face_cells_ids; [|done]. by apply list_elem_of_In.
  - apply list_elem_of_fmap in Hcell as (l & -> & Hl).
    exists l. split; [done|]. by rewrite Z.add_0_r.
Qed.

Lemma touch_lookup_length off (h : gmap nat (list Z)) l l' r :
  h !! l' = Some r →
  ∃ r', touch off h l !! l' = Some r' ∧ length r' = length r.
Proof.
  intros Hr. unfold touch. destruct (_ && _); [|eauto].
  destruct (decide (l = l')) as [->|Hne].
  - rewrite lookup_insert_eq. eexists. split; [done|].
    unfold adjust. by rewrite length_fmap, (row_lookup _ _ _ Hr).
  - rewrite lookup_insert_ne by done. eauto.
Qed.

Lemma foldl_touch_lookup_length off fs : ∀ (h : gmap nat (list Z)) l' r,
  h !! l' = Some r →
  ∃ r', foldl (touch off) h fs !! l' = Some r' ∧ length r' = length r.
Proof.
  induction fs as [|l fs IH]; intros h l' r Hr; cbn [foldl]; [eauto|].
  destruct (touch_lookup_length off h l l' r Hr) as (r1 & Hr1 & Hlen).
  destruct (IH _ _ _ Hr1) as (r2 & Hr2 & Hlen2).
  exists r2. split; [done|]. congruence.
Qed.

(** X11. Whatever the arguments and whatever the sharing between rows, a
    build deletes no row object and changes the length of none, and a row
    object that the face table does not refer to keeps its value. *)
Theorem store_frame (h : gmap nat (list Z)) (vertices : list (list coord))
    (faces : option (list nat)) (lines : option (list Z)) (off : Z)
    (fast : bool) (l : nat) (r : list Z) :
  h !! l = Some r →
  (∃ r', (buildPolyData czero id_size h vertices faces lines off fast).2 !! l
         = Some r'
         ∧ length r' = length r)
  ∧ (∀ fs, faces = Some fs → l ∉ fs →
       (buildPolyData czero id_size h vertices faces lines off fast).2 !! l
       = Some r)
  ∧ (faces = None →
       (buildPolyData czero id_size h vertices faces lines off fast).2 = h).
Proof.
  intros Hr. rewrite build_store.
  destruct (prelude czero vertices lines) as [e|poly];
    [split_and!; [eauto|done|done]|].
  destruct faces as [fs|]; [|split_and!; [eauto|done|done]].
  destruct (rectangular (row h <$> fs)) eqn:Hrect.
  - pose proof (polygons_store_rect id_size h fs off fast Hrect) as Hsub.
    assert (Hl : (polygons id_size h fs off fast).2 !! l = Some r)
      by (by eapply lookup_weaken).
    split_and!; [eauto|done|done].
  - rewrite polygons_store_ragged by done. split_and!; [|..|done].
    + by apply foldl_touch_lookup_length.
    + intros fs' [= <-] Hnin. by rewrite foldl_touch_notin.
Qed.

End MoreBuilder.

Lemma rebuild_gives_same_mesh_witness :
  Forall (λ l, is_Some (quad_store1 !! l)) [0]
  ∧ (rectangular (row quad_store1 <$> [0]) = true ∨ 1%Z = 0%Z)
  ∧ (buildPolyData 0%Z 8
       (buildPolyData 0%Z 8 quad_store1 square (Some [0]) None 1 true).2
       square (Some [0]) None 1 true).1
    = (buildPolyData 0%Z 8 quad_store1 square (Some [0]) None 1 true).1.
Proof.
  assert (H1 : Forall (λ l, is_Some (quad_store1 !! l)) [0]) by by_eval.
  assert (H2 : rectangular (row quad_store1 <$> [0]) = true ∨ 1%Z = 0%Z)
    by (left; reflexivity).
  split; [assumption|]. split; [assumption|].
  exact (rebuild_gives_same_mesh 0%Z 8 quad_store1 square [0] None 1 true H1 H2).
Defined.


Lemma fast_flag_matters_only_for_quads_witness :
  (0%Z ≠ 0%Z ∨ [0; 1] = [] ∨ rectangular (row tri_store <$> [0; 1]) = false
   ∨ (len0 (row tri_store <$> [0; 1]) ≠ 4
      ∧ exact_id 8 (Z.of_nat (len0 (row tri_store <$> [0; 1])))
      ∧ Forall (Forall (exact_id 8)) (row tri_store <$> [0; 1])))
  ∧ (buildPolyData 0%Z 8 tri_store square (Some [0; 1]) None 0 true).1
    = (buildPolyData 0%Z 8 tri_store square (Some [0; 1]) None 0 false).1.
Proof.
  assert (H1 : 0%Z ≠ 0%Z ∨ [0; 1] = [] ∨ rectangular (row tri_store <$> [0; 1]) = false
               ∨ (len0 (row tri_store <$> [0; 1]) ≠ 4
                  ∧ exact_id 8 (Z.of_nat (len0 (row tri_store <$> [0; 1])))
                  ∧ Forall (Forall (exact_id 8)) (row tri_store <$> [0; 1])))
    by (right; right; right; split_and!; by_eval).
  split; [assumption|].
  exact (fast_flag_matters_only_for_quads 0%Z 8 tri_store square [0; 1] None 0 H1).
Defined.

Lemma polygon_ids_are_input_indices_witness :
  (use_fast (np_array quad_store1 [0]).1 7 true = true →
   exact_id 8 (Z.of_nat (len0 (row quad_store1 <$> [0])))
   ∧ Forall (Forall (exact_id 8)) (row quad_store1 <$> [0]))
  ∧ (use_fast (np_array quad_store1 [0]).1 7 true = false →
     (rectangular (row quad_store1 <$> [0]) = true
      → int64_ok 7 (row quad_store1 <$> [0]))
     ∧ (rectangular (row quad_store1 <$> [0]) = false
        → 7%Z = 0%Z ∨ NoDup [0]))
  ∧ ∃ m h', buildPolyData 0%Z 8 quad_store1 square (Some [0]) None 7 true
            = (inr m, h')
      ∧ ∀ cell id, cell ∈ cells (Polys m) → id ∈ cell →
          ∃ l, l ∈ [0] ∧ (id + 7)%Z ∈ row quad_store1 l.
Proof.
  assert (H1 : use_fast (np_array quad_store1 [0]).1 7 true = true →
               exact_id 8 (Z.of_nat (len0 (row quad_store1 <$> [0])))
               ∧ Forall (Forall (exact_id 8)) (row quad_store1 <$> [0]))
    by (intros _; split; by_eval).
  assert (H2 : use_fast (np_array quad_store1 [0]).1 7 true = false →
               (rectangular (row quad_store1 <$> [0]) = true
                → int64_ok 7 (row quad_store1 <$> [0]))
               ∧ (rectangular (row quad_store1 <$> [0]) = false
                  → 7%Z = 0%Z ∨ NoDup [0]))
    by (intros _; split; intros _; [by_eval|right; by_eval]).
  split; [assumption|]. split; [assumption|].
  eexists _, _. split; [vm_compute; reflexivity|].
  exact (polygon_ids_are_input_indices 0%Z 8 quad_store1 _ square [0] None 7 true
           _ H1 H2 eq_refl).
Defined.

Lemma store_frame_witness :
  ragged_store1 !! 0 = Some [1; 2; 3]%Z
  ∧ (∃ r', (buildPolyData 0%Z 8 ragged_store1 square (Some [1; 2]) None 1 true).2
             !! 0 = Some r'
           ∧ length r' = length [1; 2; 3]%Z)
  ∧ (∀ fs, Some [1; 2] = Some fs → 0 ∉ fs →
       (buildPolyData 0%Z 8 ragged_store1 square (Some [1; 2]) None 1 true).2 !! 0
       = Some [1; 2; 3]%Z)
  ∧ (Some [1; 2] = None →
       (buildPolyData 0%Z 8 ragged_store1 square (Some [1; 2]) None 1 true).2
       = ragged_store1).
Proof.
  assert (H1 : ragged_store1 !! 0 = Some [1; 2; 3]%Z) by reflexivity.
  split; [assumption|].
  exact (store_frame 0%Z 8 ragged_store1 square (Some [1; 2]) None 1 true 0
           [1; 2; 3]%Z H1).
Defined.

(** ** humansort *)

Module HumansortFacts.
Import Humansort HumansortViews.

Section WithLimit.

Variable max_str_digits : nat.

#[local] Abbreviation int := (Humansort.int max_str_digits).
#[local] Abbreviation tryint := (Humansort.tryint max_str_digits).
#[local] Abbreviation tryint_all := (Humansort.tryint_all max_str_digits).
#[local] Abbreviation alphanum_key := (Humansort.alphanum_key max_str_digits).
#[local] Abbreviation keyed := (Humansort.keyed max_str_digits).
#[local] Abbreviation humansort := (Humansort.humansort max_str_digits).
#[local] Abbreviation within_limit := (HumansortViews.within_limit max_str_digits).

(** *** The pieces of [re.split] and the keys *)

Lemma all_chars_app p s t :
  all_chars p (s +:+ t) = all_chars p s && all_chars p t.
Proof.
  induction s as [|c s IH]; simpl; [done|]. rewrite IH. by rewrite andb_assoc.
Qed.

Lemma append_nonempty s c : s +:+ String c EmptyString ≠ EmptyString.
Proof. by destruct s. Qed.

Lemma re_split_from_pieces s : ∀ (m : bool) (cur : string),
  (if m then cur ≠ EmptyString ∧ all_chars is_09 cur = true
   else all_chars (λ c, negb (is_09 c)) cur = true) →
  pieces m (re_split_from m cur s).
Proof.
  induction s as [|c s IH]; intros m cur Hcur; cbn [re_split_from].
  - destruct m; cbn; [|by auto]. destruct Hcur. split_and!; auto.
  - destruct (is_09 c) eqn:Ec, m; cbn [pieces].
    + apply IH. destruct Hcur as [_ Hcur]. split; [apply append_nonempty|].
      rewrite all_chars_app, Hcur. cbn. by rewrite Ec.
    + split; [done|]. right. apply IH. cbn. by rewrite Ec.
    + split; [done|]. apply IH. cbn. by rewrite Ec.
    + apply IH. rewrite all_chars_app, Hcur. cbn. by rewrite Ec.
Qed.

Lemma re_split_pieces s : pieces false (re_split s).
Proof. by apply re_split_from_pieces. Qed.

Lemma is_09_char_isdigit c : is_09 c = true → char_isdigit c = true.
Proof. unfold char_isdigit. by intros ->. Qed.

Lemma all_chars_impl (p q : ascii → bool) s :
  (∀ c, p c = true → q c = true) → all_chars p s = true → all_chars q s = true.
Proof.
  intros Hpq. induction s as [|c s IH]; cbn; [done|].
  intros [Hc Hs]%andb_true_iff. by rewrite (Hpq c Hc), IH.
Qed.

Lemma int_from_digits s : ∀ acc,
  all_chars is_09 s = true → ∃ n, int_from acc s = Some n.
Proof.
  induction s as [|c s IH]; intros acc; cbn; [eauto|].
  intros [-> Hs]%andb_true_iff. by apply IH.
Qed.

Lemma int_within_limit d n :
  within_limit d = true → int_from 0 d = Some n → int d = inr n.
Proof.
  intros Hlim Hn. unfold Humansort.int. rewrite Hn.
  unfold HumansortViews.within_limit in Hlim.
  rewrite !orb_true_iff, !Nat.leb_le, Nat.eqb_eq in Hlim.
  destruct (Nat.ltb_spec 640 (String.length d)); [|done].
  destruct (Nat.ltb_spec 0 max_str_digits); [|done].
  destruct (Nat.ltb_spec max_str_digits (String.length d)); [lia|done].
Qed.

Lemma int_error d e : int d = inl e → e = ValueError.
Proof.
  unfold Humansort.int. destruct (_ && _); [by intros [= <-]|].
  destruct (int_from 0 d); [done|by intros [= <-]].
Qed.

(** A run of 0-9 becomes a number, or is refused by [int] for its
    length. *)
Lemma tryint_digits d :
  d ≠ EmptyString → all_chars is_09 d = true →
  (∃ n, tryint d = inr (CInt n)) ∨ tryint d = inl ValueError.
Proof.
  intros Hne Hd. unfold Humansort.tryint, isdigit.
  destruct d as [|c d]; [done|].
  rewrite (all_chars_impl _ _ _ is_09_char_isdigit Hd).
  destruct (int (String c d)) as [e|n] eqn:E; [|eauto].
  right. by rewrite (int_error _ _ E).
Qed.

Lemma tryint_digits_within d n :
  d ≠ EmptyString → within_limit d = true → int_from 0 d = Some n →
  all_chars is_09 d = true → tryint d = inr (CInt n).
Proof.
  intros Hne Hlim Hn Hd. unfold Humansort.tryint, isdigit.
  destruct d as [|c d]; [done|].
  rewrite (all_chars_impl _ _ _ is_09_char_isdigit Hd).
  by rewrite (int_within_limit _ _ Hlim Hn).
Qed.

(** A stretch without 0-9 stays a string, or is refused by [int]. *)
Lemma tryint_text p :
  all_chars (λ c, negb (is_09 c)) p = true →
  tryint p = inr (CStr p) ∨ tryint p = inl ValueError.
Proof.
  intros Hp. unfold Humansort.tryint. destruct p as [|c p]; [by left|].
  destruct (isdigit (String c p)); [|by left].
  destruct (int (String c p)) as [e|n] eqn:E.
  { right. by rewrite (int_error _ _ E). }
  exfalso. unfold Humansort.int in E. destruct (_ && _); [done|].
  cbn in Hp. apply andb_true_iff in Hp as [Hc _]. cbn in E.
  apply negb_true_iff in Hc. by rewrite Hc in E.
Qed.

Lemma tryint_all_alternates l : ∀ m k,
  pieces m l → tryint_all l = inr k → alternates (negb m) k.
Proof.
  induction l as [|x l IH]; intros m k; cbn [pieces tryint_all]; [done|].
  destruct m.
  - intros [[Hne Hd] Hl].
    destruct (tryint_digits x Hne Hd) as [(n & ->) | ->]; [|done].
    destruct (tryint_all l) as [e|k'] eqn:E; [done|]. intros [= <-].
    cbn. split; [done|]. by apply (IH false).
  - intros [Hp Hl]. destruct (tryint_text x Hp) as [-> | ->]; [|done].
    destruct (tryint_all l) as [e|k'] eqn:E; [done|]. intros [= <-].
    cbn. split; [done|]. destruct Hl as [-> |Hl]; [by inv E|].
    by apply (IH true).
Qed.

Lemma alphanum_key_alternates s k :
  alphanum_key s = inr k → alternates true k.
Proof. apply (tryint_all_alternates _ false), re_split_pieces. Qed.

Lemma tryint_all_no_TypeError l : tryint_all l ≠ inl TypeError.
Proof.
  induction l as [|x l IH]; cbn; [done|].
  unfold Humansort.tryint. destruct (isdigit x).
  - destruct (int x) as [e|n] eqn:E.
    + by rewrite (int_error _ _ E).
    + destruct (tryint_all l) as [[]|]; done.
  - destruct (tryint_all l) as [[]|]; done.
Qed.

(** *** The order on keys *)

Lemma ascii_compare_trans a b c :
  Ascii.compare a b = Lt → Ascii.compare b c = Lt → Ascii.compare a c = Lt.
Proof. unfold Ascii.compare. rewrite !N.compare_lt_iff. lia. Qed.

Lemma ascii_compare_refl a : Ascii.compare a a = Eq.
Proof. unfold Ascii.compare. apply N.compare_refl. Qed.

Lemma string_compare_refl s : String.compare s s = Eq.
Proof. induction s as [|c s IH]; cbn; [done|]. by rewrite ascii_compare_refl. Qed.

Lemma string_compare_trans s : ∀ t u,
  String.compare s t = Lt → String.compare t u = Lt → String.compare s u = Lt.
Proof.
  induction s as [|a s IH]; intros [|b t] [|c u]; cbn; try done.
  destruct (Ascii.compare a b) eqn:Eab; [|intros _|done].
  - apply Ascii.compare_eq_iff in Eab as ->.
    destruct (Ascii.compare b c) eqn:Ebc; [apply IH|done|done].
  - destruct (Ascii.compare b c) eqn:Ebc; [|intros _|done].
    + apply Ascii.compare_eq_iff in Ebc as <-. by rewrite Eab.
    + by rewrite (ascii_compare_trans a b c).
Qed.

Lemma cmp_chunk_eq a b : cmp_chunk a b = Eq ↔ a = b.
Proof.
  destruct a as [s|n], b as [t|m]; cbn; try (split; done).
  - split; [by intros ->%String.compare_eq_iff|].
    intros [= ->]. apply string_compare_refl.
  - rewrite N.compare_eq_iff. split; [by intros ->|by intros [=]].
Qed.

Lemma cmp_chunk_antisym a b : cmp_chunk b a = CompOpp (cmp_chunk a b).
Proof.
  destruct a as [s|n], b as [t|m]; cbn; try done.
  - apply String.compare_antisym.
  - apply N.compare_antisym.
Qed.

Lemma cmp_chunk_trans a b c :
  cmp_chunk a b = Lt → cmp_chunk b c = Lt → cmp_chunk a c = Lt.
Proof.
  destruct a as [s|n], b as [t|m], c as [u|p]; cbn; try done.
  - apply string_compare_trans.
  - rewrite !N.compare_lt_iff. lia.
Qed.

Lemma cmp_key_eq k1 : ∀ k2, cmp_key k1 k2 = Eq ↔ k1 = k2.
Proof.
  induction k1 as [|a k1 IH]; intros [|b k2]; cbn; try (split; done).
  destruct (cmp_chunk a b) eqn:E.
  - apply cmp_chunk_eq in E as ->. rewrite IH. split; [by intros ->|by intros [=]].
  - split; [done|]. intros [= -> _]. by rewrite (proj2 (cmp_chunk_eq b b)) in E.
  - split; [done|]. intros [= -> _]. by rewrite (proj2 (cmp_chunk_eq b b)) in E.
Qed.

Lemma cmp_key_antisym k1 : ∀ k2, cmp_key k2 k1 = CompOpp (cmp_key k1 k2).
Proof.
  induction k1 as [|a k1 IH]; intros [|b k2]; cbn; try done.
  rewrite (cmp_chunk_antisym a b). destruct (cmp_chunk a b); cbn; [apply IH|done..].
Qed.

Lemma cmp_key_trans k1 : ∀ k2 k3,
  cmp_key k1 k2 = Lt → cmp_key k2 k3 = Lt → cmp_key k1 k3 = Lt.
Proof.
  induction k1 as [|a k1 IH]; intros [|b k2] [|c k3]; cbn; try done.
  destruct (cmp_chunk a b) eqn:Eab; [|intros _|done].
  - apply cmp_chunk_eq in Eab as ->.
    destruct (cmp_chunk b c); [apply IH|done|done].
  - destruct (cmp_chunk b c) eqn:Ebc; [|intros _|done].
    + apply cmp_chunk_eq in Ebc as <-. by rewrite Eab.
    + by rewrite (cmp_chunk_trans a b c).
Qed.

Lemma chunk_eq_cmp a b : chunk_eq a b = true ↔ cmp_chunk a b = Eq.
Proof.
  rewrite cmp_chunk_eq. destruct a as [s|n], b as [t|m]; cbn; try (split; done).
  - rewrite String.eqb_eq. split; [by intros ->|by intros [=]].
  - rewrite N.eqb_eq. split; [by intros ->|by intros [=]].
Qed.

(** On keys of the same make, [<] is defined and is the order [cmp_key]. *)
Lemma key_lt_cmp k1 : ∀ b k2,
  alternates b k1 → alternates b k2 → key_lt k1 k2 = inr (key_ltb k1 k2).
Proof.
  unfold key_ltb.
  induction k1 as [|x k1 IH]; intros b [|y k2] H1 H2; cbn [key_lt cmp_key];
    try done.
  destruct (chunk_eq x y) eqn:E.
  - apply chunk_eq_cmp in E as E'. rewrite E'.
    destruct x, y; cbn in H1, H2; destruct H1 as [_ H1], H2 as [_ H2];
      try done; by eapply IH.
  - assert (Hne : cmp_chunk x y ≠ Eq).
    { intros H. apply chunk_eq_cmp in H. congruence. }
    destruct x as [s|n], y as [t|m]; cbn in *.
    + unfold String.ltb. by destruct (String.compare s t).
    + destruct H1 as [-> _], H2 as [? _]. done.
    + destruct H1 as [-> _], H2 as [? _]. done.
    + unfold N.ltb. by destruct (N.compare n m).
Qed.

(** *** The sort *)

Lemma key_ltb_false_le (x y : list chunk * string) : key_ltb x.1 y.1 = false → key_le y x.
Proof.
  unfold key_ltb, key_le. rewrite (cmp_key_antisym x.1 y.1).
  by destruct (cmp_key x.1 y.1).
Qed.

Lemma key_ltb_true_le (x y : list chunk * string) : key_ltb x.1 y.1 = true → key_le x y.
Proof. unfold key_ltb, key_le. by destruct (cmp_key x.1 y.1). Qed.

Lemma key_lt_le_trans (x y z : list chunk * string) :
  key_ltb x.1 y.1 = true → key_le y z → key_ltb x.1 z.1 = true.
Proof.
  unfold key_ltb, key_le. intros Hxy Hyz.
  destruct (cmp_key x.1 y.1) eqn:E1; try done.
  destruct (cmp_key y.1 z.1) eqn:E2; try done.
  - apply cmp_key_eq in E2. by rewrite <- E2, E1.
  - by rewrite (cmp_key_trans _ _ _ E1 E2).
Qed.

Lemma key_ltb_ne (x y : list chunk * string) :
  key_ltb x.1 y.1 = true → x.1 ≠ y.1.
Proof.
  unfold key_ltb. intros H E. apply cmp_key_eq in E. by rewrite E in H.
Qed.

Lemma insort_pure_perm x l : insort_pure x l ≡ₚ x :: l.
Proof.
  induction l as [|y l IH]; cbn [insort_pure]; [done|].
  destruct (key_ltb x.1 y.1); [done|]. rewrite IH. apply Permutation_swap.
Qed.

Lemma insort_pure_sorted x l :
  StronglySorted key_le l → StronglySorted key_le (insort_pure x l).
Proof.
  induction 1 as [|y l Hl IH Hy]; cbn [insort_pure].
  - by repeat constructor.
  - destruct (key_ltb x.1 y.1) eqn:E.
    + constructor; [by constructor|]. constructor; [by apply key_ltb_true_le|].
      eapply Forall_impl; [exact Hy|]. intros z Hz.
      apply key_ltb_true_le. by eapply key_lt_le_trans.
    + constructor; [done|]. rewrite insort_pure_perm.
      constructor; [by apply key_ltb_false_le|done].
Qed.

Lemma sort_pure_perm l : ∀ acc, sort_pure acc l ≡ₚ acc ++ l.
Proof.
  unfold sort_pure. induction l as [|x l IH]; intros acc; cbn [foldl].
  - by rewrite app_nil_r.
  - rewrite IH, insort_pure_perm. apply Permutation_middle.
Qed.

Lemma sort_pure_sorted l : ∀ acc,
  StronglySorted key_le acc → StronglySorted key_le (sort_pure acc l).
Proof.
  unfold sort_pure. induction l as [|x l IH]; intros acc Hacc; cbn [foldl];
    [done|]. by apply IH, insort_pure_sorted.
Qed.

(** An element goes behind the elements of the same key. *)
Lemma insort_pure_stable k x l :
  StronglySorted key_le l →
  filter (λ p, p.1 = k) (insort_pure x l)
  = filter (λ p, p.1 = k) l ++ filter (λ p, p.1 = k) [x].
Proof.
  induction 1 as [|y l Hl IH Hy]; cbn [insort_pure]; [done|].
  destruct (key_ltb x.1 y.1) eqn:E.
  - rewrite (filter_cons _ x), (filter_cons _ x [] ), filter_nil.
    destruct (decide (x.1 = k)) as [Hk|Hk]; [|by rewrite app_nil_r].
    assert (Hnone : filter (λ p, p.1 = k) (y :: l) = []).
    { assert (Hall : Forall (λ z, z.1 ≠ k) (y :: l)).
      { constructor.
        - intros Hy'. apply (key_ltb_ne _ _ E). congruence.
        - eapply Forall_impl; [exact Hy|]. intros z Hz Hz'.
          apply (key_ltb_ne x z); [by eapply key_lt_le_trans|congruence]. }
      clear -Hall. induction Hall as [|z l' Hz _ IH']; [done|].
      by rewrite filter_cons_False. }
    by rewrite Hnone.
  - rewrite !(filter_cons _ y), IH. by destruct (decide (y.1 = k)).
Qed.

Lemma sort_pure_stable k l : ∀ acc,
  StronglySorted key_le acc →
  filter (λ p, p.1 = k) (sort_pure acc l)
  = filter (λ p, p.1 = k) acc ++ filter (λ p, p.1 = k) l.
Proof.
  unfold sort_pure. induction l as [|x l IH]; intros acc Hacc; cbn [foldl].
  - by rewrite filter_nil, app_nil_r.
  - rewrite IH by by apply insort_pure_sorted.
    rewrite insort_pure_stable by done.
    by rewrite <- app_assoc, <- filter_app.
Qed.

(** The comparisons of the sort are between keys of the same make, so that
    none fails. *)
Lemma insort_eq x l :
  alternates true x.1 → Forall (λ y, alternates true y.1) l →
  insort x l = inr (insort_pure x l).
Proof.
  intros Hx. induction 1 as [|y l Hy Hl IH]; cbn [insort insort_pure]; [done|].
  rewrite (key_lt_cmp _ _ _ Hx Hy). destruct (key_ltb x.1 y.1); [done|].
  by rewrite IH.
Qed.

Lemma sort_from_eq l : ∀ acc,
  Forall (λ y, alternates true y.1) acc →
  Forall (λ y, alternates true y.1) l →
  sort_from acc l = inr (sort_pure acc l).
Proof.
  unfold sort_pure.
  induction l as [|x l IH]; intros acc Hacc Hl; cbn [sort_from foldl]; [done|].
  apply Forall_cons in Hl as [Hx Hl]. rewrite (insort_eq _ _ Hx Hacc).
  apply IH; [|done]. rewrite insort_pure_perm. by constructor.
Qed.

Lemma keyed_spec l : ∀ kl, keyed l = inr kl →
  snd <$> kl = l ∧ Forall (λ p, alphanum_key p.2 = inr p.1) kl
  ∧ Forall (λ p, alternates true p.1) kl.
Proof.
  induction l as [|s l IH]; intros kl; cbn [keyed].
  - intros [= <-]. by repeat split.
  - destruct (alphanum_key s) as [e|k] eqn:Ek; [done|].
    destruct (keyed l) as [e|kl'] eqn:Ekl; [done|]. intros [= <-].
    destruct (IH _ eq_refl) as (H1 & H2 & H3). split_and!.
    + cbn. by rewrite H1.
    + by constructor.
    + constructor; [|done]. by eapply alphanum_key_alternates.
Qed.

Lemma keyed_defined l :
  Forall (λ s, ∃ k, alphanum_key s = inr k) l → ∃ kl, keyed l = inr kl.
Proof.
  induction 1 as [|s l [k Hk] _ [kl IH]]; cbn [keyed]; [by eexists|].
  rewrite Hk, IH. by eexists.
Qed.

Lemma keyed_error l e : keyed l = inl e → e = ValueError.
Proof.
  induction l as [|s l IH]; cbn [keyed]; [done|].
  destruct (alphanum_key s) as [e'|k] eqn:Ek.
  - intros [= <-]. destruct e'; [done|].
    by apply tryint_all_no_TypeError in Ek.
  - destruct (keyed l) as [e'|kl']; [|done]. intros [= <-]. by apply IH.
Qed.

(** What [humansort] computes, when the keys can be made. *)
Lemma humansort_eq l kl :
  keyed l = inr kl → humansort l = inr (snd <$> sort_pure [] kl).
Proof.
  intros Hk. unfold humansort. rewrite Hk.
  destruct (keyed_spec _ _ Hk) as (_ & _ & Halt).
  by rewrite sort_from_eq.
Qed.

Lemma humansort_inv l l' :
  humansort l = inr l' →
  ∃ kl, keyed l = inr kl ∧ l' = snd <$> sort_pure [] kl.
Proof.
  intros H. destruct (keyed l) as [e|kl] eqn:Hk.
  - unfold humansort in H. by rewrite Hk in H.
  - exists kl. split; [done|]. rewrite (humansort_eq _ _ Hk) in H. congruence.
Qed.

(** 7-bit text: every piece is made into a chunk. *)
Lemma re_split_from_all q s : ∀ (m : bool) (cur : string),
  all_chars q s = true → all_chars q cur = true →
  Forall (λ p, all_chars q p = true) (re_split_from m cur s).
Proof.
  induction s as [|c s IH]; intros m cur Hs Hcur; cbn [re_split_from].
  - destruct m; repeat constructor; done.
  - cbn in Hs. apply andb_true_iff in Hs as [Hc Hs].
    assert (H1 : all_chars q (String c EmptyString) = true)
      by (cbn; by rewrite Hc).
    assert (H2 : all_chars q (cur +:+ String c EmptyString) = true)
      by (rewrite all_chars_app, Hcur, H1; done).
    destruct (is_09 c), m; try (constructor; [done|]); by apply IH.
Qed.

Lemma re_split_from_length s : ∀ (m : bool) (cur : string),
  Forall (λ p, String.length p ≤ String.length cur + String.length s)
    (re_split_from m cur s).
Proof.
  assert (Hsnoc : ∀ cur c,
            String.length (cur +:+ String c EmptyString)
            = S (String.length cur)).
  { intros cur c. induction cur as [|a cur IH]; [done|].
    change (S (String.length (cur +:+ String c EmptyString))
            = S (S (String.length cur))). by rewrite IH. }
  induction s as [|c s IH]; intros m cur; cbn [re_split_from].
  - destruct m; repeat constructor; cbn; lia.
  - destruct (is_09 c), m.
    + eapply Forall_impl; [apply IH|]. intros p. cbn. rewrite Hsnoc. lia.
    + constructor; [cbn; lia|].
      eapply Forall_impl; [apply IH|]. intros p. cbn. lia.
    + constructor; [cbn; lia|].
      eapply Forall_impl; [apply IH|]. intros p. cbn. lia.
    + eapply Forall_impl; [apply IH|]. intros p. cbn. rewrite Hsnoc. lia.
Qed.

Lemma within_limit_shorter s p :
  String.length p ≤ String.length s →
  within_limit s = true → within_limit p = true.
Proof.
  unfold HumansortViews.within_limit.
  rewrite !orb_true_iff, !Nat.leb_le, Nat.eqb_eq. lia.
Qed.

Lemma tryint_ascii7 p :
  is_ascii7 p = true → within_limit p = true → ∃ x, tryint p = inr x.
Proof.
  intros H7 Hlim. unfold Humansort.tryint.
  destruct (isdigit p) eqn:Ed; [|by eexists].
  assert (H09 : all_chars is_09 p = true).
  { destruct p as [|c p]; [done|]. unfold isdigit in Ed.
    unfold is_ascii7 in H7. revert Ed H7. generalize (String c p). clear.
    induction s as [|c s IH]; [done|]. cbn [all_chars].
    rewrite !andb_true_iff. intros [Hc Hs] [H7 H7s]. split; [|by apply IH].
    unfold char_isdigit in Hc. apply Nat.ltb_lt in H7.
    rewrite !orb_true_iff, !Nat.eqb_eq in Hc.
    destruct Hc as [[[Hc|Hc]|Hc]|Hc]; [done|lia..]. }
  destruct (int_from_digits p 0 H09) as [n Hn].
  rewrite (int_within_limit _ _ Hlim Hn). by eexists.
Qed.

Lemma alphanum_key_ascii7 s :
  is_ascii7 s = true → within_limit s = true → ∃ k, alphanum_key s = inr k.
Proof.
  intros H7 Hlim. unfold Humansort.alphanum_key, re_split.
  assert (Hall : Forall (λ p, is_ascii7 p = true ∧ within_limit p = true)
                   (re_split_from false EmptyString s)).
  { apply Forall_and. split; [by apply re_split_from_all|].
    eapply Forall_impl; [apply re_split_from_length|]. intros p Hp.
    by apply (within_limit_shorter s). }
  induction Hall as [|p ps [Hp Hl] _ [k IH]]; cbn [Humansort.tryint_all];
    [by eexists|].
  destruct (tryint_ascii7 p Hp Hl) as [x ->]. rewrite IH. by eexists.
Qed.

Lemma StronglySorted_lookup {A} (R : relation A) l :
  StronglySorted R l → ∀ i j x y,
  i < j → l !! i = Some x → l !! j = Some y → R x y.
Proof.
  induction 1 as [|a l Hl IH Ha]; intros i j x y Hij Hi Hj; [done|].
  destruct j as [|j]; [lia|]. cbn in Hj. destruct i as [|i].
  - cbn in Hi. injection Hi as ->.
    rewrite Forall_forall in Ha. apply Ha. by eapply list_elem_of_lookup_2.
  - cbn in Hi. apply (IH i j); [lia|done..].
Qed.

Lemma filter_keyed k kl :
  Forall (λ p, alphanum_key p.2 = inr p.1) kl →
  filter (λ s, alphanum_key s = inr k) (snd <$> kl)
  = snd <$> filter (λ p : list chunk * string, p.1 = k) kl.
Proof.
  induction 1 as [|p kl Hp _ IH]; [done|].
  rewrite fmap_cons, !filter_cons, IH, Hp.
  destruct (decide (inr p.1 = inr k)) as [[= E]|E], (decide (p.1 = k)) as [E'|E'];
    try done; congruence.
Qed.

Lemma append_nil_r s : s +:+ EmptyString = s.
Proof.
  induction s as [|c s IH]; [done|].
  change (String c (s +:+ EmptyString) = String c s). by rewrite IH.
Qed.

Lemma append_snoc cur c p :
  (cur +:+ String c EmptyString) +:+ p = cur +:+ String c p.
Proof.
  induction cur as [|a cur IH]; [done|].
  change (String a ((cur +:+ String c EmptyString) +:+ p)
          = String a (cur +:+ String c p)). by rewrite IH.
Qed.

Lemma re_split_from_text p rest : ∀ cur,
  all_chars (λ c, negb (is_09 c)) p = true →
  re_split_from false cur (p +:+ rest) = re_split_from false (cur +:+ p) rest.
Proof.
  induction p as [|c p IH]; intros cur Hp.
  - by rewrite append_nil_r.
  - cbn in Hp. apply andb_true_iff in Hp as [Hc Hp].
    apply negb_true_iff in Hc.
    change (String c p +:+ rest) with (String c (p +:+ rest)).
    cbn [re_split_from]. rewrite Hc, IH by done. by rewrite append_snoc.
Qed.

Lemma re_split_from_digits d rest : ∀ cur,
  all_chars is_09 d = true →
  re_split_from true cur (d +:+ rest) = re_split_from true (cur +:+ d) rest.
Proof.
  induction d as [|c d IH]; intros cur Hd.
  - by rewrite append_nil_r.
  - cbn in Hd. apply andb_true_iff in Hd as [Hc Hd].
    change (String c d +:+ rest) with (String c (d +:+ rest)).
    cbn [re_split_from]. rewrite Hc, IH by done. by rewrite append_snoc.
Qed.

Lemma int_from_Some s : ∀ acc n,
  int_from acc s = Some n → all_chars is_09 s = true.
Proof.
  induction s as [|c s IH]; intros acc n; cbn [int_from all_chars]; [done|].
  destruct (is_09 c); [|done]. intros H. by rewrite (IH _ _ H).
Qed.

(** A name with a number at its end: the text, the number, and the empty
    piece behind the number. *)
Lemma alphanum_key_numbered p d n :
  all_chars (λ c, negb (is_09 c)) p = true → isdigit p = false →
  d ≠ EmptyString → within_limit d = true → int_from 0 d = Some n →
  alphanum_key (p +:+ d) = inr [CStr p; CInt n; CStr EmptyString].
Proof.
  intros Hp Hnd Hne Hlim Hn. pose proof (int_from_Some _ _ _ Hn) as Hd.
  assert (Hsplit : re_split (p +:+ d) = [p; d; EmptyString]).
  { unfold re_split. rewrite re_split_from_text by done.
    destruct d as [|c d]; [done|].
    cbn in Hd. apply andb_true_iff in Hd as [Hc Hd].
    change (EmptyString +:+ p) with p.
    cbn [re_split_from]. rewrite Hc. rewrite <- (append_nil_r d) at 1.
    rewrite re_split_from_digits by done. done. }
  unfold Humansort.alphanum_key. rewrite Hsplit. cbn [Humansort.tryint_all].
  assert (Hp' : tryint p = inr (CStr p))
    by (unfold Humansort.tryint; by rewrite Hnd).
  assert (Hd' : tryint d = inr (CInt n)) by by apply tryint_digits_within.
  by rewrite Hp', Hd'.
Qed.

(** X12. On a list of strings whose characters have code points below 256,
    whatever the limit on the digits of [int], the only failure of
    [humansort] is the [ValueError] of [int]: the comparisons of the sort
    never meet a string and a number, because every key starts with a
    string and strings and numbers take turns in it. *)
Theorem humansort_fails_only_in_int (l : list string) (e : error) :
  humansort l = inl e → e = ValueError.
Proof.
  unfold Humansort.humansort. destruct (keyed l) as [e'|kl] eqn:Hk.
  - intros [= <-]. by eapply keyed_error.
  - destruct (keyed_spec _ _ Hk) as (_ & _ & Halt).
    by rewrite sort_from_eq.
Qed.

(** X13. On strings of 7-bit characters that are not longer than what
    [int] converts (at most 640 characters, or at most the limit on the
    digits, or any length when there is no limit) [humansort] returns a
    list. *)
Theorem humansort_of_ascii_returns (l : list string) :
  Forall (λ s, is_ascii7 s = true ∧ within_limit s = true) l →
  ∃ l', humansort l = inr l'.
Proof.
  intros H7. destruct (keyed_defined l) as [kl Hk].
  { eapply Forall_impl; [exact H7|]. intros s [? ?].
    by apply alphanum_key_ascii7. }
  rewrite (humansort_eq _ _ Hk). by eexists.
Qed.

(** X14. The list [humansort] returns has the elements of its argument,
    in an order in which no element has a smaller key than an element
    before it, and elements of the same key keep the order they had. *)
Theorem humansort_is_a_stable_sort (l l' : list string) :
  humansort l = inr l' →
  l' ≡ₚ l
  ∧ (∀ i j s t ks kt, i < j → l' !! i = Some s → l' !! j = Some t →
       alphanum_key s = inr ks → alphanum_key t = inr kt →
       key_lt kt ks = inr false)
  ∧ (∀ k, filter (λ s, alphanum_key s = inr k) l'
          = filter (λ s, alphanum_key s = inr k) l).
Proof.
  intros (kl & Hk & ->)%humansort_inv.
  destruct (keyed_spec _ _ Hk) as (Hl & Hkey & Halt).
  pose proof (sort_pure_perm kl []) as Hperm. cbn [app] in Hperm.
  assert (Hkey' : Forall (λ p, alphanum_key p.2 = inr p.1) (sort_pure [] kl))
    by by rewrite Hperm.
  assert (Halt' : Forall (λ p, alternates true p.1) (sort_pure [] kl))
    by by rewrite Hperm.
  assert (Hsorted : StronglySorted key_le (sort_pure [] kl))
    by (apply sort_pure_sorted; constructor).
  split_and!.
  - by rewrite Hperm, Hl.
  - intros i j s t ks kt Hij Hi Hj Hs Ht.
    apply list_lookup_fmap_Some in Hi as (p & -> & Hi).
    apply list_lookup_fmap_Some in Hj as (q & -> & Hj).
    rewrite Forall_lookup in Hkey'. rewrite Forall_lookup in Halt'.
    rewrite (Hkey' _ _ Hi) in Hs. rewrite (Hkey' _ _ Hj) in Ht.
    injection Hs as <-. injection Ht as <-.
    rewrite (key_lt_cmp _ _ _ (Halt' _ _ Hj) (Halt' _ _ Hi)). f_equal.
    pose proof (StronglySorted_lookup _ _ Hsorted i j p q Hij Hi Hj) as Hle.
    unfold key_le in Hle. unfold key_ltb. rewrite cmp_key_antisym.
    by destruct (cmp_key p.1 q.1).
  - intros k. rewrite filter_keyed by done.
    rewrite sort_pure_stable by constructor.
    rewrite filter_nil, app_nil_l, <- filter_keyed by done. by rewrite Hl.
Qed.

(** X15. Two names (of code points below 256) that differ in the number at
    their end are put in the order of the numbers, not of the digit
    strings; with the same number (say with and without leading zeros) they
    keep their order. The text before the number has no 0-9 and is not a
    string of superscript digits, and the numbers are not longer than what
    [int] converts. *)
Theorem humansort_orders_numbers_by_value (p d1 d2 : string) (n1 n2 : N) :
  all_chars (λ c, negb (is_09 c)) p = true → isdigit p = false →
  d1 ≠ EmptyString → d2 ≠ EmptyString →
  within_limit d1 = true → within_limit d2 = true →
  int_from 0 d1 = Some n1 → int_from 0 d2 = Some n2 →
  humansort [p +:+ d1; p +:+ d2]
  = inr (if (n2 <? n1)%N then [p +:+ d2; p +:+ d1] else [p +:+ d1; p +:+ d2]).
Proof.
  intros Hp Hnd Hne1 Hne2 Hl1 Hl2 Hn1 Hn2.
  unfold Humansort.humansort. cbn [Humansort.keyed].
  rewrite (alphanum_key_numbered p d1 n1), (alphanum_key_numbered p d2 n2)
    by done.
  cbn [sort_from insort key_lt fst snd chunk_eq chunk_lt].
  rewrite String.eqb_refl. destruct (N.eqb_spec n2 n1) as [-> |Hne].
  - rewrite N.ltb_irrefl. done.
  - by destruct (n2 <? n1)%N.
Qed.

(** A number of more digits than the limit is refused. *)
Lemma int_beyond_limit d :
  0 < max_str_digits → 640 < String.length d →
  max_str_digits < String.length d → int d = inl ValueError.
Proof.
  intros H0 H640 Hmax. unfold Humansort.int.
  apply Nat.ltb_lt in H0, H640, Hmax. by rewrite H0, H640, Hmax.
Qed.

End WithLimit.

Lemma humansort_fails_only_in_int_witness :
  ∃ e, humansort 4300 ["a1"%string; superscript_two] = inl e ∧ e = ValueError.
Proof.
  assert (H1 : humansort 4300 ["a1"%string; superscript_two] = inl ValueError)
    by (vm_compute; reflexivity).
  exists ValueError. split; [assumption|].
  exact (humansort_fails_only_in_int 4300 _ _ H1).
Defined.

Lemma humansort_of_ascii_returns_witness :
  Forall (λ s, is_ascii7 s = true ∧ within_limit 4300 s = true) names
  ∧ ∃ l', humansort 4300 names = inr l'.
Proof.
  assert (H1 : Forall (λ s, is_ascii7 s = true ∧ within_limit 4300 s = true)
                 names)
    by (repeat constructor).
  split; [assumption|]. exact (humansort_of_ascii_returns 4300 names H1).
Defined.

Lemma humansort_is_a_stable_sort_witness :
  humansort 4300 names = inr names_sorted
  ∧ names_sorted ≡ₚ names
  ∧ (∀ i j s t ks kt, i < j →
       names_sorted !! i = Some s → names_sorted !! j = Some t →
       alphanum_key 4300 s = inr ks → alphanum_key 4300 t = inr kt →
       key_lt kt ks = inr false)
  ∧ (∀ k, filter (λ s, alphanum_key 4300 s = inr k) names_sorted
          = filter (λ s, alphanum_key 4300 s = inr k) names).
Proof.
  assert (H1 : humansort 4300 names = inr names_sorted)
    by (vm_compute; reflexivity).
  split; [assumption|].
  exact (humansort_is_a_stable_sort 4300 names names_sorted H1).
Defined.

Lemma humansort_orders_numbers_by_value_witness :
  all_chars (λ c, negb (is_09 c)) "file" = true
  ∧ isdigit "file" = false
  ∧ "11"%string ≠ EmptyString ∧ "2"%string ≠ EmptyString
  ∧ within_limit 4300 "11" = true ∧ within_limit 4300 "2" = true
  ∧ int_from 0 "11" = Some 11%N ∧ int_from 0 "2" = Some 2%N
  ∧ humansort 4300 ["file11"; "file2"]%string
    = inr ["file2"; "file11"]%string.
Proof.
  assert (H1 : all_chars (λ c, negb (is_09 c)) "file" = true) by reflexivity.
  assert (H2 : isdigit "file" = false) by reflexivity.
  assert (H3 : "11"%string ≠ EmptyString) by discriminate.
  assert (H4 : "2"%string ≠ EmptyString) by discriminate.
  assert (H5 : within_limit 4300 "11" = true) by reflexivity.
  assert (H6 : within_limit 4300 "2" = true) by reflexivity.
  assert (H7 : int_from 0 "11" = Some 11%N) by reflexivity.
  assert (H8 : int_from 0 "2" = Some 2%N) by reflexivity.
  repeat (split; [assumption|]).
  exact (humansort_orders_numbers_by_value 4300 "file" "11" "2" 11 2
           H1 H2 H3 H4 H5 H6 H7 H8).
Defined.

End HumansortFacts.
